(** * Textbook RSA over a fixed-width big integer (lab3/main.cpp)

    A shallow embedding of the number-theoretic core of [lab3/main.cpp]:
    binary modular exponentiation ([BinPower]), the single-witness
    Miller-Rabin style test ([IsPrime]), random candidate generation
    ([GetRandBits], [FPrime]), the extended Euclidean algorithm
    ([ExtendedEuclidian]), key generation ([GenerateRSAKeys]) and the
    block cipher ([Encode], [Decode]).

    Conventions of the embedding.
    - [uint1024] is [boost::multiprecision::cpp_int_backend<4096, 4096,
      signed_magnitude, unchecked, void>]: a sign and a magnitude of at most
      4096 bits, without allocation and without overflow checks.  Values
      are integers of [Z]; an arithmetic result whose magnitude does not
      fit is truncated to its low 4096 bits ([wrap]), which is the
      arithmetic modulo [2^MaxBits] of an unchecked fixed-precision
      [cpp_int].  Bitwise [&] and [|] act as on two's complement values
      ([Z.land], [Z.lor]).
    - [/] and [%] truncate toward zero ([Z.quot], [Z.rem]) and throw on a
      zero divisor; [<<] throws on a negative shift count.
    - Every loop and every non-structural recursion takes a [fuel]; a run
      that exhausts it yields [OutOfFuel], which stands for "has not
      returned yet". *)

From Stdlib Require Import ZArith Znumtheory Zpow_facts Lia List Bool String Ascii.
From Stdlib Require Import Zmod.ZmodInv.
From Bignums Require Import BigN.
Import ListNotations.
Local Open Scope Z_scope.

(** ** Outcomes of a call *)

Inductive exn : Set :=
| overflow_error   (* "Division by zero." *)
| out_of_range.    (* "Can not shift by a negative value." *)

Inductive Outcome (A : Type) : Type :=
| Ret (a : A)
| Throw (e : exn)
| OutOfFuel.

Arguments Ret {A} a.
Arguments Throw {A} e.
Arguments OutOfFuel {A}.

Definition bind {A B : Type} (c : Outcome A) (k : A -> Outcome B) : Outcome B :=
  match c with
  | Ret a => k a
  | Throw e => Throw e
  | OutOfFuel => OutOfFuel
  end.

Notation "x <- c ;; k" := (bind c (fun x => k))
  (at level 61, c at next level, right associativity).

(** ** The integer type *)

Module UInt.

(** Number of magnitude bits of [uint1024]. *)
Definition MaxBits : Z := 4096.

Definition capacity : Z := 2 ^ MaxBits.

Definition representable (x : Z) : Prop := Z.abs x < capacity.

(** Sign-magnitude truncation: the sign is kept, the magnitude keeps its
    low [MaxBits] bits. *)
Definition wrap (x : Z) : Z := Z.sgn x * Z.land (Z.abs x) (Z.ones MaxBits).

Definition add (a b : Z) : Z := wrap (a + b).
Definition sub (a b : Z) : Z := wrap (a - b).
Definition mul (a b : Z) : Z := wrap (a * b).

Definition div (a b : Z) : Outcome Z :=
  if b =? 0 then Throw overflow_error else Ret (Z.quot a b).

Definition rem (a b : Z) : Outcome Z :=
  if b =? 0 then Throw overflow_error else Ret (Z.rem a b).

Definition shl (a s : Z) : Outcome Z :=
  if s <? 0 then Throw out_of_range else Ret (wrap (Z.shiftl a s)).

(** [uint32_t] increment. *)
Definition u32 (x : Z) : Z := x mod 2 ^ 32.

End UInt.

Import UInt.

(** ** TRSAKeys *)

Record TRSAKeys : Set := mkTRSAKeys {
  PublicKey : Z * Z;
  PrivateKey : Z * Z
}.

Definition TRSAKeys_ctor (openKey privateKey module : Z) : TRSAKeys :=
  {| PublicKey := (openKey, module); PrivateKey := (privateKey, module) |}.

(** ** BinPower

    [power / 2] drops the last binary digit of [power], so the recursion of
    the source is structural on the digits of [power]; [BinPower_unfold]
    below restates it in the shape of the source. *)

Fixpoint BinPower_digits (base : Z) (power : positive) (mod_ : Z) : Outcome Z :=
  value <- match power with
           | xH => Ret 1
           | xO half | xI half => BinPower_digits base half mod_
           end ;;
  value <- rem (mul value value) mod_ ;;
  match power with
  | xO _ => Ret value
  | _ => rem (mul value base) mod_
  end.

Definition BinPower (base power mod_ : Z) : Outcome Z :=
  match power with
  | Z0 => Ret 1
  | Zpos p | Zneg p => BinPower_digits base p mod_
  end.

(** ** IsPrime *)

Definition primes : list Z := [3; 5; 7; 11; 13; 17; 19; 23; 29; 31].

Definition temp : Z := 1.

(** [for (auto p : primes) if (value % p == 0) return false;]
    [Some r] is an early [return r], [None] falls through to the code after
    the loop. *)
Fixpoint trial_division (value : Z) (ps : list Z) : Outcome (option bool) :=
  match ps with
  | [] => Ret None
  | p :: ps' =>
      r <- rem value p ;;
      if r =? 0 then Ret (Some false) else trial_division value ps'
  end.

(** [while ((value & (temp << power)) == 0) ++power;] with [uint32_t power]. *)
Fixpoint find_power (fuel : nat) (value power : Z) : Outcome Z :=
  match fuel with
  | O => OutOfFuel
  | S fuel' =>
      bit <- shl temp power ;;
      if Z.land value bit =? 0
      then find_power fuel' value (u32 (power + 1))
      else Ret power
  end.

(** [for (uint32_t i = ...; i < power; ++i) { surplus = ...; if (...) return true; }]
    followed by the final [return false]. *)
Fixpoint squaring_loop (fuel : nat) (i power surplus value : Z) : Outcome bool :=
  match fuel with
  | O => OutOfFuel
  | S fuel' =>
      if i <? power then
        surplus <- rem (mul surplus surplus) value ;;
        if surplus =? sub value 1 then Ret true
        else squaring_loop fuel' (u32 (i + 1)) power surplus value
      else Ret false
  end.

(** The part of [IsPrime] after the trial divisions (source lines 72-93):
    the base-2 witness check. *)
Definition witness_check (fuel : nat) (value : Z) : Outcome bool :=
  let base := 2 in
  let value := sub value 1 in
  power <- find_power fuel value 0 ;;
  let value := add value 1 in
  d <- shl temp power ;;
  q <- div value d ;;
  surplus <- BinPower base q value ;;
  if (surplus =? 1) || (surplus =? sub value 1) then Ret true
  else squaring_loop fuel 1 power surplus value.

Definition IsPrime (fuel : nat) (value : Z) : Outcome bool :=
  early <- trial_division value primes ;;
  match early with
  | Some r => Ret r
  | None => witness_check fuel value
  end.

(** ** GetRandBits and FPrime

    A [std::default_random_engine] is the sequence of values that
    the distribution goes on to draw from it, and the number of draws made
    so far. *)

Record default_random_engine : Type := mkEngine {
  draws : nat -> Z;
  drawn : nat
}.

Definition uniform_dist (engine : default_random_engine) : Z * default_random_engine :=
  (draws engine (drawn engine),
   {| draws := draws engine; drawn := S (drawn engine) |}).

(** [for (int i = ...; i < bits; ++i)]: bit [i] is set when the draw is even. *)
Fixpoint GetRandBits_loop (fuel : nat) (i bits value : Z)
    (engine : default_random_engine) : Outcome (Z * default_random_engine) :=
  match fuel with
  | O => OutOfFuel
  | S fuel' =>
      if i <? bits then
        let (draw, engine) := uniform_dist engine in
        if Z.land draw 1 =? 0 then
          bit <- shl 1 i ;;
          GetRandBits_loop fuel' (i + 1) bits (Z.lor value bit) engine
        else GetRandBits_loop fuel' (i + 1) bits value engine
      else Ret (value, engine)
  end.

Definition GetRandBits (fuel : nat) (bits : Z) (engine : default_random_engine)
  : Outcome (Z * default_random_engine) :=
  GetRandBits_loop fuel 0 bits 0 engine.

(** [while (true) { ... }] of [FPrime]; the counter [count] of the source is
    written and never read, and is left out. *)
Fixpoint FPrime_loop (fuel : nat) (bits e mask : Z)
    (engine : default_random_engine) : Outcome Z :=
  match fuel with
  | O => OutOfFuel
  | S fuel' =>
      r <- GetRandBits fuel' bits engine ;;
      let (rand, engine) := (r : Z * default_random_engine) in
      let value := Z.lor rand mask in
      m <- rem value e ;;
      if negb (m =? 1) then
        ok <- IsPrime fuel' value ;;
        if (ok : bool) then Ret value else FPrime_loop fuel' bits e mask engine
      else FPrime_loop fuel' bits e mask engine
  end.

(** [rnd] is the output sequence of the engine that this call seeds from
    [std::random_device].  [bits - 2] is the [int32_t] difference for
    [bits >= -2^31 + 2]; below that the source overflows a signed [int],
    which this definition does not describe. *)
Definition FPrime (fuel : nat) (rnd : nat -> Z) (bits : Z) : Outcome Z :=
  let engine := {| draws := rnd; drawn := O |} in
  p <- BinPower 2 16 1000000000 ;;
  let e := add p 1 in
  s <- shl 3 (bits - 2) ;;
  let mask := Z.lor s 1 in
  FPrime_loop fuel bits e mask engine.

(** The bit count passes through [uint32_t] and back to [int32_t]
    unchanged. *)
Definition GeneratePrime (fuel : nat) (rnd : nat -> Z) (bitsCount : Z) : Outcome Z :=
  FPrime fuel rnd bitsCount.

(** ** ExtendedEuclidian *)

Fixpoint ExtendedEuclidian (fuel : nat) (e phi : Z) : Outcome (Z * Z) :=
  match fuel with
  | O => OutOfFuel
  | S fuel' =>
      if e =? 0 then Ret (0, 1)
      else
        r <- rem phi e ;;
        tmp <- ExtendedEuclidian fuel' r e ;;
        let x1 := fst tmp in
        let y1 := snd tmp in
        d <- div phi e ;;
        Ret (sub y1 (mul d x1), x1)
  end.

(** ** GenerateRSAKeys *)

Definition endl : string := String (ascii_of_nat 10) EmptyString.

Definition warning_incorrect_exps : string := "Warning. Incorrect exps" ++ endl.
Definition block_is_too_large : string := "Block is too large." ++ endl.

(** [while (privateExp < 0) { ... }]: [privateExp] starts at [-1], so the
    body runs before the first test.  [rd k] is the output sequence of the
    engine of the [k]-th call of [GeneratePrime]. *)
Fixpoint GenerateRSAKeys_loop (fuel : nat) (rd : nat -> nat -> Z) (k : nat)
    (phi bitsCount : Z) : Outcome (Z * Z) :=
  match fuel with
  | O => OutOfFuel
  | S fuel' =>
      openExp <- GeneratePrime fuel' (rd k) (Z.min bitsCount 32) ;;
      temp <- ExtendedEuclidian fuel' openExp phi ;;
      let privateExp := fst temp in
      if privateExp <? 0
      then GenerateRSAKeys_loop fuel' rd (S k) phi bitsCount
      else Ret (openExp, privateExp)
  end.

(** The result comes with what was written to [std::cerr]. *)
Definition GenerateRSAKeys (fuel : nat) (rd : nat -> nat -> Z) (p q bitsCount : Z)
  : Outcome (TRSAKeys * list string) :=
  let moduleValue := mul p q in
  let phi := mul (sub p 1) (sub q 1) in
  exps <- GenerateRSAKeys_loop fuel rd O phi bitsCount ;;
  let openExp := fst exps in
  let privateExp := snd exps in
  check <- rem (mul openExp privateExp) phi ;;
  let cerr := if negb (check =? 1) then [warning_incorrect_exps] else [] in
  Ret (TRSAKeys_ctor openExp privateExp moduleValue, cerr).

(** ** Encode and Decode *)

Definition Encode (value : Z) (publicKey : Z * Z) : list string * Outcome Z :=
  (if value >=? snd publicKey then [block_is_too_large] else [],
   BinPower value (fst publicKey) (snd publicKey)).

Definition Decode (value : Z) (privateKey : Z * Z) : Outcome Z :=
  BinPower value (fst privateKey) (snd privateKey).

(** ** TransformFromBits and TransformToBits

    A [std::string] is the list of its characters; [bits.length()] is a
    [size_t] and the loop indices are [int]s. *)

Definition u64 (x : Z) : Z := x mod 2 ^ 64.

Definition int32 (x : Z) : Z := (x + 2 ^ 31) mod 2 ^ 32 - 2 ^ 31.

Definition warning_incorrect_sizes : string := "Warning. Incorrect sizes" ++ endl.

(** [for (int i = ..., j = ...; j >= 0 && i < bitsCount; --j, ++i)]:
    [continue] still runs [--j, ++i]; the index [j] stays inside the
    string. *)
Fixpoint TransformFromBits_loop (fuel : nat) (bits : list ascii)
    (bitsCount i j value : Z) : Outcome Z :=
  match fuel with
  | O => OutOfFuel
  | S fuel' =>
      if (j >=? 0) && (i <? bitsCount) then
        if Ascii.eqb (nth (Z.to_nat j) bits Ascii.zero) "0"%char then
          TransformFromBits_loop fuel' bits bitsCount (i + 1) (j - 1) value
        else
          bit <- shl 1 i ;;
          TransformFromBits_loop fuel' bits bitsCount (i + 1) (j - 1) (add value bit)
      else Ret value
  end.

(** The result comes with what was written to [std::cerr]. *)
Definition TransformFromBits (fuel : nat) (bits : list ascii) (bitsCount : Z)
  : list string * Outcome Z :=
  let length := Z.of_nat (List.length bits) in
  (if negb (u64 bitsCount =? length) then [warning_incorrect_sizes] else [],
   TransformFromBits_loop fuel bits bitsCount 0 (int32 (u64 (length - 1))) 0).

(** [for (int i = ...; i >= 0; --i) bits += (value & (1 << i)) ? '1' : '0';] *)
Fixpoint TransformToBits_loop (fuel : nat) (value i : Z) (bits : list ascii)
  : Outcome (list ascii) :=
  match fuel with
  | O => OutOfFuel
  | S fuel' =>
      if i >=? 0 then
        bit <- shl 1 i ;;
        let c : ascii := if negb (Z.land value bit =? 0) then "1"%char else "0"%char in
        TransformToBits_loop fuel' value (i - 1) (bits ++ [c])
      else Ret bits
  end.

(** [value] is what [uint1024 value{value_p}] constructs from the decimal
    string [value_p]; that constructor belongs to the integer library.
    [bitsCount - 1] is the [int] difference for [bitsCount > -2^31]; at
    [-2^31] the source overflows a signed [int], which this definition does
    not describe. *)
Definition TransformToBits (fuel : nat) (value bitsCount : Z) : Outcome (list ascii) :=
  TransformToBits_loop fuel value (bitsCount - 1) [].

(** ** Vocabulary of the statements

    Nothing below is part of the program: these definitions name what the
    theorems talk about (the iterates of the squaring loop, concrete draw
    sequences, primality certificates). *)

(** [surplus] after [j] rounds of [surplus = (surplus * surplus) % value],
    with the product of the integer type. *)
Definition squarings (value : Z) (j : nat) (surplus : Z) : Z :=
  Nat.iter j (fun s => Z.rem (mul s s) value) surplus.

(** [surplus] after [j] squarings modulo [value], in exact arithmetic. *)
Definition exact_squarings (value : Z) (j : nat) (surplus : Z) : Z :=
  Nat.iter j (fun s => (s * s) mod value) surplus.

(** Whether one of the first [n] squarings hits [value - 1]. *)
Fixpoint loop_accepts (n : nat) (surplus value : Z) : bool :=
  match n with
  | O => false
  | S n' =>
      let surplus := Z.rem (mul surplus surplus) value in
      (surplus =? sub value 1) || loop_accepts n' surplus value
  end.

(** Draws that set bit 2 only: with the mask of [FPrime 6] the candidate is 53. *)
Definition draws_53 (i : nat) : Z := if (i =? 2)%nat then 0 else 1.


(** Draws that clear bits 1 to 5: with the mask of [FPrime 12] the candidate
    is 4033 = 37 * 109, a strong pseudoprime to base 2. *)
Definition draws_4033 (i : nat) : Z := if ((1 <=? i) && (i <=? 5))%nat then 1 else 0.

(** [true] when no [n] with [d <= n] and [n * n <= p] divides [p]. *)
Fixpoint no_divisor_from (fuel : nat) (d p : Z) : bool :=
  match fuel with
  | O => false
  | S fuel' =>
      if p <? d * d then true
      else if p mod d =? 0 then false
      else no_divisor_from fuel' (d + 1) p
  end.

(** Modular exponentiation on machine words, to check certificates of
    large primes. *)
Fixpoint bn_powmod (a : bigN) (e : positive) (n : bigN) : bigN :=
  match e with
  | xH => BigN.modulo a n
  | xO e' => let v := bn_powmod a e' n in BigN.modulo (BigN.mul v v) n
  | xI e' =>
      let v := bn_powmod a e' n in
      BigN.modulo (BigN.mul (BigN.modulo (BigN.mul v v) n) a) n
  end.

(** Proth's test of [k * 2^t + 1] with the base [a]. *)
Definition proth_certificate (k t a : Z) : bool :=
  let N := k * 2 ^ t + 1 in
  (1 <=? t) && (0 <? k) && (k <? 2 ^ t) && (0 <=? a) &&
  BigN.eqb (bn_powmod (BigN.N_of_Z a) (Z.to_pos (k * 2 ^ (t - 1))) (BigN.N_of_Z N))
           (BigN.N_of_Z (N - 1)).

(** Two Proth primes of 1025 bits, with their two most significant bits
    set as [FPrime 1025] would produce them. *)
Definition P1025 : Z := 25166287 * 2 ^ 1000 + 1.
Definition Q1025 : Z := 25166401 * 2 ^ 1000 + 1.

(** The character that [TransformToBits] writes for bit [i]. *)
Definition bit_char (value i : Z) : ascii :=
  if (i <? MaxBits) && Z.testbit value i then "1"%char else "0"%char.

(** The characters for bits [n - 1] down to 0. *)
Fixpoint bit_chars (value : Z) (n : nat) : list ascii :=
  match n with
  | O => []
  | S k => bit_char value (Z.of_nat k) :: bit_chars value k
  end.

(** Whether [TransformFromBits] reads the character [c] as a one. *)
Definition reads_as_one (c : ascii) : bool := negb (Ascii.eqb c "0"%char).

(** ** Facts about the integer type *)

Lemma capacity_pos : 0 < capacity.
Proof. unfold capacity, MaxBits. apply Z.pow_pos_nonneg; lia. Qed.

Lemma capacity_split : capacity = 2 ^ 2048 * 2 ^ 2048.
Proof. unfold capacity, MaxBits. rewrite <- Z.pow_add_r by lia. reflexivity. Qed.

Lemma wrap_nonneg_mod x : 0 <= x -> wrap x = x mod capacity.
Proof.
  intros Hx. unfold wrap, capacity.
  rewrite Z.abs_eq by assumption.
  rewrite Z.land_ones by (unfold MaxBits; lia).
  destruct (Z.eq_dec x 0) as [->|Hn].
  - reflexivity.
  - rewrite Z.sgn_pos by lia. lia.
Qed.

Lemma wrap_small x : 0 <= x < capacity -> wrap x = x.
Proof.
  intros Hx. rewrite wrap_nonneg_mod by lia. apply Z.mod_small. assumption.
Qed.

Lemma wrap_opp x : wrap (- x) = - wrap x.
Proof. unfold wrap. rewrite Z.sgn_opp, Z.abs_opp. lia. Qed.

Lemma wrap_rem x : wrap x = Z.rem x capacity.
Proof.
  pose proof capacity_pos as Hc.
  destruct (Z.le_gt_cases 0 x) as [Hx|Hx].
  - rewrite wrap_nonneg_mod, Z.rem_mod_nonneg by lia. reflexivity.
  - replace x with (- (- x)) by lia.
    rewrite wrap_opp, Z.rem_opp_l by lia.
    rewrite wrap_nonneg_mod, Z.rem_mod_nonneg by lia. reflexivity.
Qed.

Lemma wrap_representable x : representable x -> wrap x = x.
Proof.
  unfold representable. intros Hx.
  destruct (Z.le_gt_cases 0 x) as [H0|H0].
  - apply wrap_small. lia.
  - replace x with (- (- x)) by lia. rewrite wrap_opp.
    rewrite wrap_small by lia. reflexivity.
Qed.

Lemma rem_Ret a b : b <> 0 -> rem a b = Ret (Z.rem a b).
Proof. intros Hb. unfold rem. apply Z.eqb_neq in Hb. rewrite Hb. reflexivity. Qed.

Lemma div_Ret a b : b <> 0 -> div a b = Ret (Z.quot a b).
Proof. intros Hb. unfold div. apply Z.eqb_neq in Hb. rewrite Hb. reflexivity. Qed.

Lemma shl_Ret a s : 0 <= s -> shl a s = Ret (wrap (Z.shiftl a s)).
Proof. intros Hs. unfold shl. apply Z.ltb_ge in Hs. rewrite Hs. reflexivity. Qed.

(** ** BinPower in the shape of the source *)

Lemma quot2_digit (h : positive) (d : Z) :
  0 <= d < 2 -> Z.quot (2 * Z.pos h + d) 2 = Z.pos h /\ Z.rem (2 * Z.pos h + d) 2 = d.
Proof.
  intros Hd. split.
  - symmetry. apply Z.quot_unique with (r := d); lia.
  - symmetry. apply Z.rem_unique with (q := Z.pos h); lia.
Qed.

Lemma BinPower_unfold base power mod_ :
  BinPower base power mod_ =
  if power =? 0 then Ret 1
  else
    value <- BinPower base (Z.quot power 2) mod_ ;;
    value <- rem (mul value value) mod_ ;;
    if negb (Z.rem power 2 =? 0) then rem (mul value base) mod_ else Ret value.
Proof.
  destruct power as [|p|p]; [reflexivity| |].
  - destruct p as [h|h|].
    + rewrite Pos2Z.inj_xI. destruct (quot2_digit h 1) as [-> ->]; [lia|]. reflexivity.
    + rewrite Pos2Z.inj_xO. replace (2 * Z.pos h) with (2 * Z.pos h + 0) by lia.
      destruct (quot2_digit h 0) as [-> ->]; [lia|]. reflexivity.
    + reflexivity.
  - replace (Z.neg p) with (- Z.pos p) by reflexivity.
    rewrite Z.quot_opp_l, Z.rem_opp_l by lia.
    destruct p as [h|h|].
    + rewrite Pos2Z.inj_xI. destruct (quot2_digit h 1) as [-> ->]; [lia|]. reflexivity.
    + rewrite Pos2Z.inj_xO. replace (2 * Z.pos h) with (2 * Z.pos h + 0) by lia.
      destruct (quot2_digit h 0) as [-> ->]; [lia|]. reflexivity.
    + reflexivity.
Qed.

(** ** ModPow: what [BinPower] computes *)

Lemma mul_exact a b : 0 <= a -> 0 <= b -> a * b < capacity -> mul a b = a * b.
Proof. intros Ha Hb Hab. unfold mul. apply wrap_small. nia. Qed.

Lemma rem_mod_Ret a m : 0 <= a -> 0 < m -> rem a m = Ret (a mod m).
Proof.
  intros Ha Hm. rewrite rem_Ret by lia. rewrite Z.rem_mod_nonneg by lia. reflexivity.
Qed.

Section BinPower_exact.

Variables base mod_ : Z.
Hypothesis base_nonneg : 0 <= base.
Hypothesis mod_gt_1 : 1 < mod_.
Hypothesis square_fits : mod_ * mod_ <= capacity.
Hypothesis product_fits : base * mod_ <= capacity.

Lemma square_step v :
  0 <= v < mod_ -> rem (mul v v) mod_ = Ret ((v * v) mod mod_).
Proof.
  intros Hv. rewrite mul_exact by nia. apply rem_mod_Ret; nia.
Qed.

Lemma multiply_step v :
  0 <= v < mod_ -> rem (mul v base) mod_ = Ret ((v * base) mod mod_).
Proof.
  intros Hv. rewrite mul_exact by nia. apply rem_mod_Ret; nia.
Qed.

Lemma BinPower_digits_exact (power : positive) :
  BinPower_digits base power mod_ = Ret (base ^ Z.pos power mod mod_).
Proof.
  induction power as [h IH|h IH|].
  - cbn [BinPower_digits]. rewrite IH. cbn [bind].
    rewrite square_step by (apply Z.mod_pos_bound; lia). cbn [bind].
    rewrite multiply_step by (apply Z.mod_pos_bound; lia).
    f_equal. rewrite Pos2Z.inj_xI.
    replace (2 * Z.pos h + 1) with (Z.pos h + Z.pos h + 1) by lia.
    rewrite !Z.pow_add_r, Z.pow_1_r by lia.
    rewrite <- Z.mul_mod by lia.
    rewrite Z.mul_mod_idemp_l by lia. reflexivity.
  - cbn [BinPower_digits]. rewrite IH. cbn [bind].
    rewrite square_step by (apply Z.mod_pos_bound; lia). cbn [bind].
    f_equal. rewrite Pos2Z.inj_xO.
    replace (2 * Z.pos h) with (Z.pos h + Z.pos h) by lia.
    rewrite Z.pow_add_r by lia.
    rewrite <- Z.mul_mod by lia. reflexivity.
  - cbn [BinPower_digits bind].
    rewrite square_step by lia. cbn [bind].
    rewrite Z.mul_1_l, (Z.mod_small 1) by lia.
    rewrite multiply_step by lia.
    rewrite Z.mul_1_l, Z.pow_1_r. reflexivity.
Qed.

Lemma BinPower_exact power :
  0 <= power -> BinPower base power mod_ = Ret (base ^ power mod mod_).
Proof.
  intros Hp. destruct power as [|p|p]; [|apply BinPower_digits_exact|lia].
  cbn [BinPower]. rewrite Z.pow_0_r, Z.mod_small by lia. reflexivity.
Qed.

End BinPower_exact.

(** C2 (as amended).  For a base [b >= 0], an exponent [k >= 0] and a
    modulus [m > 1] whose products stay within the 4096 bits of the integer
    type ([m * m <= 2^4096] and [b * m <= 2^4096]), [BinPower b k m] returns
    [b^k mod m]; [BinPower b 0 m] returns 1 for every [b] and [m], and
    [BinPower 2 10 1000] returns 24. *)
Theorem C2_BinPower_spec :
  (forall b k m, 0 <= b -> 0 <= k -> 1 < m ->
     m * m <= capacity -> b * m <= capacity ->
     BinPower b k m = Ret (b ^ k mod m)) /\
  (forall b m, BinPower b 0 m = Ret 1) /\
  BinPower 2 10 1000 = Ret 24.
Proof.
  split; [|split].
  - intros b k m Hb Hk Hm Hmm Hbm. apply BinPower_exact; assumption.
  - reflexivity.
  - vm_compute. reflexivity.
Qed.

Lemma C2_BinPower_spec_witness :
  BinPower 7 13 15 = Ret (7 ^ 13 mod 15).
Proof.
  apply (proj1 C2_BinPower_spec 7 13 15); unfold capacity, MaxBits; try lia.
Defined.

(** C2 counterexample.  Base [2^2048], exponent 2 and modulus [2^4096 - 1]
    are values of the integer type; the square [2^4096] does not fit the
    4096 bits and is truncated to 0, so [BinPower] returns 0 where
    [b^k mod m] is 1. *)
Lemma C2_counterexample :
  let b := 2 ^ 2048 in
  let m := 2 ^ 4096 - 1 in
  0 <= b /\ 1 < m /\ representable b /\ representable m /\
  BinPower b 2 m = Ret 0 /\ b ^ 2 mod m = 1.
Proof.
  cbv zeta. unfold representable, capacity, MaxBits.
  split; [vm_compute; discriminate|].
  do 4 (split; [vm_compute; reflexivity|]).
  vm_compute. reflexivity.
Qed.

(** ** Encode *)

Lemma BinPower_digits_returns base power mod_ :
  mod_ <> 0 -> exists c, BinPower_digits base power mod_ = Ret c.
Proof.
  intros Hm. induction power as [h [v IH]|h [v IH]|]; cbn [BinPower_digits].
  - rewrite IH. cbn [bind]. rewrite !rem_Ret by assumption. cbn [bind].
    rewrite rem_Ret by assumption. eauto.
  - rewrite IH. cbn [bind]. rewrite !rem_Ret by assumption. cbn [bind]. eauto.
  - cbn [bind]. rewrite !rem_Ret by assumption. cbn [bind].
    rewrite rem_Ret by assumption. eauto.
Qed.

Lemma BinPower_returns base power mod_ :
  mod_ <> 0 -> exists c, BinPower base power mod_ = Ret c.
Proof.
  intros Hm. destruct power; cbn [BinPower]; eauto using BinPower_digits_returns.
Qed.

(** C8.  For a message [m >= 0] and a public key [(e, n)] with [n > 1],
    [Encode] returns exactly what [BinPower m e n] returns, and that is a
    value; the oversize-block condition [m >= n] only decides whether the
    diagnostic is written to the error stream. *)
Theorem C8_Encode_fail_open m e n :
  0 <= m -> 1 < n ->
  snd (Encode m (e, n)) = BinPower m e n /\
  (exists c, snd (Encode m (e, n)) = Ret c) /\
  (n <= m -> fst (Encode m (e, n)) = [block_is_too_large]) /\
  (m < n -> fst (Encode m (e, n)) = []).
Proof.
  intros Hm Hn. unfold Encode. cbn [fst snd]. repeat split.
  - apply BinPower_returns. lia.
  - intros Hle. destruct (Z.geb_spec m n); [reflexivity|lia].
  - intros Hlt. destruct (Z.geb_spec m n); [lia|reflexivity].
Qed.

Lemma C8_Encode_fail_open_witness :
  snd (Encode 5000 (17, 3233)) = BinPower 5000 17 3233 /\
  (exists c, snd (Encode 5000 (17, 3233)) = Ret c) /\
  (3233 <= 5000 -> fst (Encode 5000 (17, 3233)) = [block_is_too_large]) /\
  (5000 < 3233 -> fst (Encode 5000 (17, 3233)) = []).
Proof. apply (C8_Encode_fail_open 5000 17 3233); lia. Defined.

(** ** The trial divisions of IsPrime *)

Lemma trial_division_cases value ps :
  Forall (fun p => p <> 0) ps ->
  (trial_division value ps = Ret (Some false) /\ Exists (fun p => Z.rem value p = 0) ps) \/
  (trial_division value ps = Ret None /\ Forall (fun p => Z.rem value p <> 0) ps).
Proof.
  induction 1 as [|p ps Hp Hps IH]; cbn [trial_division].
  - right. split; [reflexivity|constructor].
  - rewrite rem_Ret by assumption. cbn [bind].
    destruct (Z.eqb_spec (Z.rem value p) 0) as [E|E].
    + left. split; [reflexivity|]. constructor. assumption.
    + destruct IH as [[-> Hex]|[-> Hall]].
      * left. split; [reflexivity|]. apply Exists_cons_tl. assumption.
      * right. split; [reflexivity|]. constructor; assumption.
Qed.

Lemma primes_nonzero : Forall (fun p => p <> 0) primes.
Proof. unfold primes. repeat constructor; discriminate. Qed.

Lemma trial_division_rejects value p :
  In p primes -> (p | value) -> trial_division value primes = Ret (Some false).
Proof.
  intros Hin Hdiv.
  destruct (trial_division_cases value primes primes_nonzero) as [[E _]|[_ Hall]].
  - exact E.
  - rewrite Forall_forall in Hall. exfalso. apply (Hall p Hin).
    apply Z.rem_divide; [|assumption].
    pose proof primes_nonzero as Hnz. rewrite Forall_forall in Hnz. auto.
Qed.


Lemma IsPrime_filtered fuel value :
  trial_division value primes = Ret (Some false) -> IsPrime fuel value = Ret false.
Proof. intros E. unfold IsPrime. rewrite E. reflexivity. Qed.

Lemma IsPrime_survivor fuel value :
  trial_division value primes = Ret None -> IsPrime fuel value = witness_check fuel value.
Proof. intros E. unfold IsPrime. rewrite E. reflexivity. Qed.

(** ** Parity under the integer operations *)

Lemma even_rem a b : Z.even b = true -> Z.even (Z.rem a b) = Z.even a.
Proof.
  intros Hb. destruct (Z.eq_dec b 0) as [->|Hnz].
  - rewrite Z.rem_0_r_ext by reflexivity. reflexivity.
  - pose proof (Z.quot_rem' a b) as E.
    rewrite E at 2. rewrite Z.even_add, Z.even_mul, Hb. cbn.
    destruct (Z.even (Z.rem a b)); reflexivity.
Qed.

Lemma capacity_even : Z.even capacity = true.
Proof.
  unfold capacity, MaxBits. replace (2 ^ 4096) with (2 * 2 ^ 4095).
  - rewrite Z.even_mul. reflexivity.
  - rewrite <- Z.pow_succ_r by lia. reflexivity.
Qed.

Lemma even_wrap x : Z.even (wrap x) = Z.even x.
Proof. rewrite wrap_rem. apply even_rem, capacity_even. Qed.

Lemma BinPower_digits_even power mod_ :
  mod_ <> 0 -> Z.even mod_ = true ->
  exists s, BinPower_digits 2 power mod_ = Ret s /\ Z.even s = true /\ 0 <= s.
Proof.
  intros Hnz Hev.
  assert (Hdouble : forall w, 0 <= w ->
            exists s, rem (mul w 2) mod_ = Ret s /\ Z.even s = true /\ 0 <= s).
  { intros w Hw. rewrite rem_Ret by assumption. eexists. split; [reflexivity|].
    unfold mul. rewrite even_rem, even_wrap, Z.even_mul by assumption.
    split; [rewrite orb_true_r; reflexivity|].
    apply Z.rem_nonneg; [assumption|]. rewrite wrap_rem.
    apply Z.rem_nonneg; [pose proof capacity_pos|]; lia. }
  assert (Hsquare : forall v, 0 <= Z.rem (mul v v) mod_).
  { intros v. apply Z.rem_nonneg; [assumption|]. unfold mul. rewrite wrap_rem.
    apply Z.rem_nonneg; [pose proof capacity_pos|]; nia. }
  induction power as [h [v [IH [Hv Hv0]]]|h [v [IH [Hv Hv0]]]|]; cbn [BinPower_digits].
  - rewrite IH. cbn [bind]. rewrite rem_Ret by assumption. cbn [bind].
    apply Hdouble, Hsquare.
  - rewrite IH. cbn [bind]. rewrite rem_Ret by assumption. cbn [bind].
    eexists. split; [reflexivity|]. split; [|apply Hsquare].
    unfold mul. rewrite even_rem, even_wrap, Z.even_mul, Hv by assumption. reflexivity.
  - cbn [bind]. rewrite rem_Ret by assumption. cbn [bind].
    apply Hdouble, Hsquare.
Qed.

(** ** Even inputs *)

Lemma capacity_double : capacity = 2 * 2 ^ 4095.
Proof. unfold capacity, MaxBits. rewrite <- Z.pow_succ_r by lia. reflexivity. Qed.

Lemma land_1 x : Z.land x 1 = x mod 2.
Proof. change 1 with (Z.ones 1) at 1. rewrite Z.land_ones by lia. reflexivity. Qed.

Lemma shl_temp_0 : shl temp 0 = Ret 1.
Proof.
  rewrite shl_Ret by lia. unfold temp. rewrite Z.shiftl_0_r, wrap_small; [reflexivity|].
  pose proof capacity_double. lia.
Qed.

Lemma witness_check_even fuel value :
  representable value -> Z.even value = true -> value <> 0 ->
  witness_check (S fuel) value = Ret false.
Proof.
  unfold representable. intros Hrep Hev Hnz.
  apply Z.even_spec in Hev as Hk. destruct Hk as [k Hk].
  pose proof capacity_double as Hc.
  unfold witness_check.
  assert (Hsub : sub value 1 = value - 1).
  { unfold sub. apply wrap_representable. unfold representable. lia. }
  rewrite Hsub.
  assert (Hadd : add (value - 1) 1 = value).
  { unfold add. replace (value - 1 + 1) with value by lia.
    apply wrap_representable. exact Hrep. }
  rewrite Hadd, Hsub.
  cbn [find_power]. rewrite shl_temp_0. cbn [bind].
  rewrite land_1. replace ((value - 1) mod 2) with 1
    by (apply Z.mod_unique with (q := k - 1); lia).
  cbn [Z.eqb bind]. rewrite shl_temp_0. cbn [bind].
  rewrite div_Ret by lia. cbn [bind]. rewrite Z.quot_1_r.
  destruct (BinPower_digits_even (Z.to_pos (Z.abs value)) value Hnz Hev)
    as [s [Es [Hs Hs0]]].
  assert (EB : BinPower 2 value value = Ret s).
  { destruct value as [|p|p]; [congruence|exact Es|exact Es]. }
  rewrite EB. cbn [bind].
  apply Z.even_spec in Hs. destruct Hs as [j Hj].
  destruct (Z.eqb_spec s 1) as [E1|_]; [lia|].
  destruct (Z.eqb_spec s (value - 1)) as [E2|_]; [lia|].
  reflexivity.
Qed.

Lemma IsPrime_even fuel value :
  representable value -> Z.even value = true -> IsPrime (S fuel) value = Ret false.
Proof.
  intros Hrep Hev.
  destruct (trial_division_cases value primes primes_nonzero) as [[E _]|[E Hall]].
  - apply IsPrime_filtered, E.
  - rewrite IsPrime_survivor by exact E.
    apply witness_check_even; try assumption.
    intros ->. inversion Hall as [|p ps H3 _]; subst. apply H3. reflexivity.
Qed.

(** C4 (as amended).  [IsPrime] rejects every value that is even or a
    multiple of a member of [{3, ..., 31}].  A multiple of a member is
    rejected by the trial divisions themselves, before [BinPower] is called;
    the trial divisions do not test for evenness. *)
Theorem C4_IsPrime_small_factor_rejection :
  (forall fuel value p, In p primes -> (p | value) ->
     trial_division value primes = Ret (Some false) /\
     IsPrime fuel value = Ret false) /\
  (forall fuel value, representable value -> Z.even value = true ->
     IsPrime (S fuel) value = Ret false).
Proof.
  split.
  - intros fuel value p Hin Hdiv.
    pose proof (trial_division_rejects value p Hin Hdiv) as E.
    split; [exact E|apply IsPrime_filtered, E].
  - intros fuel value Hrep Hev. apply IsPrime_even; assumption.
Qed.

Lemma C4_IsPrime_small_factor_rejection_witness :
  (trial_division 91 primes = Ret (Some false) /\ IsPrime 0 91 = Ret false) /\
  IsPrime 1 94 = Ret false.
Proof.
  split.
  - apply (proj1 C4_IsPrime_small_factor_rejection 0%nat 91 7).
    + cbn. tauto.
    + exists 13. reflexivity.
  - apply (proj2 C4_IsPrime_small_factor_rejection 0%nat 94).
    + unfold representable, capacity, MaxBits. cbn [Z.abs]. lia.
    + reflexivity.
Defined.

(** C4 counterexample.  The even value 2 passes every trial division: the
    pre-filter returns nothing, and 2 is rejected only by the witness check
    that follows. *)
Lemma C4_counterexample :
  Z.even 2 = true /\
  trial_division 2 primes = Ret None /\
  IsPrime 1 2 = witness_check 1 2 /\
  BinPower 2 2 2 = Ret 0 /\
  IsPrime 1 2 = Ret false.
Proof. repeat split; vm_compute; reflexivity. Qed.

(** ** The scan for the lowest set bit *)

Lemma land_pow2 a j :
  0 <= j -> Z.land a (2 ^ j) = if Z.testbit a j then 2 ^ j else 0.
Proof.
  intros Hj. destruct (Z.testbit a j) eqn:Hb; apply Z.bits_inj'; intros n Hn.
  - rewrite Z.land_spec, Z.pow2_bits_eqb by assumption.
    destruct (Z.eqb_spec j n) as [<-|_]; [rewrite Hb; reflexivity|apply andb_false_r].
  - rewrite Z.land_spec, Z.pow2_bits_eqb, Z.bits_0 by assumption.
    destruct (Z.eqb_spec j n) as [<-|_]; [rewrite Hb; reflexivity|apply andb_false_r].
Qed.

Lemma shl_temp_pow2 j : 0 <= j < MaxBits -> shl temp j = Ret (2 ^ j).
Proof.
  intros Hj. rewrite shl_Ret by lia. unfold temp. rewrite Z.shiftl_1_l.
  rewrite wrap_small; [reflexivity|]. unfold capacity. split.
  - apply Z.pow_nonneg. lia.
  - apply Z.pow_lt_mono_r; lia.
Qed.

Lemma odd_part_exists v :
  0 < v -> exists k q, 0 <= k /\ Z.odd q = true /\ v = 2 ^ k * q.
Proof.
  destruct v as [|p|p]; try lia. intros _.
  induction p as [h _|h [k [q [Hk [Hq E]]]]|].
  - exists 0, (Z.pos h~1). split; [lia|]. split; [reflexivity|].
    rewrite Z.pow_0_r. lia.
  - exists (k + 1), q. split; [lia|]. split; [assumption|].
    rewrite Pos2Z.inj_xO, E, Z.pow_add_r, Z.pow_1_r by lia. lia.
  - exists 0, 1. split; [lia|]. split; reflexivity.
Qed.

Lemma pow2_below_capacity k q :
  0 <= k -> 0 < q -> 2 ^ k * q < capacity -> k < MaxBits.
Proof.
  intros Hk Hq Hlt. apply (Z.pow_lt_mono_r_iff 2); [lia|unfold MaxBits; lia|].
  fold capacity. pose proof (Z.pow_pos_nonneg 2 k). nia.
Qed.

Lemma u32_small x : 0 <= x < 2 ^ 32 -> u32 x = x.
Proof. intros Hx. unfold u32. apply Z.mod_small. assumption. Qed.

Lemma find_power_scan v k q :
  0 <= k < MaxBits -> Z.odd q = true -> v = 2 ^ k * q ->
  forall fuel j, 0 <= j <= k -> (Z.to_nat (k - j) < fuel)%nat ->
  find_power fuel v j = Ret k.
Proof.
  intros Hk Hq Ev. induction fuel as [|fuel IH]; intros j Hj Hfuel; [lia|].
  cbn [find_power]. rewrite shl_temp_pow2 by lia. cbn [bind].
  rewrite land_pow2 by lia.
  destruct (Z.eq_dec j k) as [->|Hne].
  - replace (Z.testbit v k) with true.
    + pose proof (Z.pow_pos_nonneg 2 k).
      destruct (Z.eqb_spec (2 ^ k) 0); [lia|reflexivity].
    + rewrite Ev, Z.mul_comm. replace k with (k + 0) at 2 by lia.
      rewrite Z.mul_pow2_bits_add, Z.bit0_odd by lia. congruence.
  - replace (Z.testbit v j) with false.
    + cbn [Z.eqb]. rewrite u32_small by (unfold MaxBits in Hk; lia).
      apply IH; lia.
    + rewrite Ev, Z.mul_comm. symmetry. apply Z.mul_pow2_bits_low. lia.
Qed.

Lemma find_power_zero fuel power : 0 <= power -> find_power fuel 0 power = OutOfFuel.
Proof.
  revert power. induction fuel as [|fuel IH]; intros power Hp; [reflexivity|].
  cbn [find_power]. rewrite shl_Ret by assumption. cbn [bind Z.land Z.eqb].
  apply IH. unfold u32. apply Z.mod_pos_bound. lia.
Qed.

(** ** The squaring loop *)

Lemma loop_accepts_spec value n surplus :
  loop_accepts n surplus value = true <->
  exists j, (1 <= j <= n)%nat /\ squarings value j surplus = sub value 1.
Proof.
  revert surplus. induction n as [|n IH]; intros surplus; cbn [loop_accepts].
  - split; [discriminate|]. intros [j [Hj _]]. lia.
  - rewrite orb_true_iff, IH, Z.eqb_eq. split.
    + intros [E|[j [Hj E]]].
      * exists 1%nat. split; [lia|exact E].
      * exists (S j). split; [lia|]. unfold squarings in *.
        rewrite Nat.iter_succ_r. exact E.
    + intros [j [Hj E]]. destruct j as [|[|j]]; [lia| |].
      * left. exact E.
      * right. exists (S j). split; [lia|]. unfold squarings in *.
        rewrite Nat.iter_succ_r in E. exact E.
Qed.

Lemma squaring_loop_exact value power :
  value <> 0 -> power < 2 ^ 32 ->
  forall fuel i surplus, 1 <= i -> (Z.to_nat (power - i) < fuel)%nat ->
  squaring_loop fuel i power surplus value =
  Ret (loop_accepts (Z.to_nat (power - i)) surplus value).
Proof.
  intros Hv Hp. induction fuel as [|fuel IH]; intros i surplus Hi Hfuel; [lia|].
  cbn [squaring_loop]. destruct (Z.ltb_spec i power) as [Hlt|Hge].
  - rewrite rem_Ret by assumption. cbn [bind].
    replace (Z.to_nat (power - i)) with (S (Z.to_nat (power - (i + 1)))) by lia.
    cbn [loop_accepts].
    destruct (Z.rem (mul surplus surplus) value =? sub value 1); [reflexivity|].
    rewrite u32_small by lia. cbn [orb]. apply IH; lia.
  - replace (Z.to_nat (power - i)) with O by lia. reflexivity.
Qed.

(** ** What the witness check computes *)

Lemma witness_check_exact fuel value power q :
  2 <= value < capacity ->
  0 <= power -> Z.odd q = true -> value - 1 = 2 ^ power * q ->
  (Z.to_nat power < fuel)%nat ->
  exists surplus,
    BinPower 2 (Z.quot value (2 ^ power)) value = Ret surplus /\
    witness_check fuel value =
    Ret ((surplus =? 1) || (surplus =? value - 1) ||
         loop_accepts (Z.to_nat (power - 1)) surplus value).
Proof.
  intros Hv Hp Hq E Hfuel.
  assert (Hq0 : 0 < q) by (pose proof (Z.pow_pos_nonneg 2 power); nia).
  assert (Hp' : power < MaxBits).
  { apply (pow2_below_capacity power q); lia. }
  assert (Hsub : sub value 1 = value - 1) by (unfold sub; apply wrap_small; lia).
  assert (Hadd : add (value - 1) 1 = value).
  { unfold add. replace (value - 1 + 1) with value by lia. apply wrap_small; lia. }
  destruct (BinPower_returns 2 (Z.quot value (2 ^ power)) value) as [surplus Es]; [lia|].
  exists surplus. split; [exact Es|].
  unfold witness_check. rewrite Hsub, Hadd, Hsub.
  rewrite (find_power_scan (value - 1) power q) by (try assumption; lia).
  cbn [bind]. rewrite shl_temp_pow2 by lia. cbn [bind].
  pose proof (Z.pow_pos_nonneg 2 power).
  rewrite div_Ret by lia. cbn [bind]. rewrite Es. cbn [bind].
  destruct ((surplus =? 1) || (surplus =? value - 1)); [reflexivity|].
  cbn [orb]. apply squaring_loop_exact; unfold MaxBits in *; lia.
Qed.

Lemma IsPrime_returns value :
  2 <= value < capacity ->
  exists power b, 0 <= power <= Z.log2 (value - 1) /\
    forall fuel, (Z.to_nat power < fuel)%nat -> IsPrime fuel value = Ret b.
Proof.
  intros Hv.
  destruct (odd_part_exists (value - 1)) as [power [q [Hp [Hq E]]]]; [lia|].
  assert (Hq0 : 0 < q) by (pose proof (Z.pow_pos_nonneg 2 power); nia).
  assert (Hlog : power <= Z.log2 (value - 1)).
  { apply Z.log2_le_pow2; [lia|]. pose proof (Z.pow_pos_nonneg 2 power). nia. }
  destruct (trial_division_cases value primes primes_nonzero) as [[Et _]|[Et _]].
  - exists power, false. split; [lia|]. intros fuel _. apply IsPrime_filtered, Et.
  - destruct (witness_check_exact (S (Z.to_nat power)) value power q)
      as [surplus [Es _]]; try assumption; [lia|].
    eexists power, _. split; [lia|]. intros fuel Hfuel.
    rewrite IsPrime_survivor by exact Et.
    destruct (witness_check_exact fuel value power q) as [s' [Es' ->]]; try assumption.
    rewrite Es in Es'. injection Es' as <-. reflexivity.
Qed.

Lemma IsPrime_1_diverges fuel : IsPrime fuel 1 = OutOfFuel.
Proof.
  unfold IsPrime.
  replace (trial_division 1 primes) with (Ret (@None bool)) by reflexivity.
  cbn [bind]. unfold witness_check.
  replace (sub 1 1) with 0 by reflexivity.
  rewrite find_power_zero by lia. reflexivity.
Qed.

(** C10.  [IsPrime] returns for every value [>= 2] of the integer type:
    with [power] the position of the lowest set bit of [value - 1] (at most
    [log2 (value - 1)]), any fuel above [power] is enough for the scan and
    for the at most [power - 1] rounds of the squaring loop.  At [value = 1]
    the trial divisions pass and the scan of [value - 1 = 0] never returns,
    whatever the fuel. *)
Theorem C10_IsPrime_termination :
  (forall value, 2 <= value < capacity ->
     exists power b, 0 <= power <= Z.log2 (value - 1) /\
       forall fuel, (Z.to_nat power < fuel)%nat -> IsPrime fuel value = Ret b) /\
  trial_division 1 primes = Ret None /\
  (forall fuel, IsPrime fuel 1 = OutOfFuel).
Proof.
  split; [exact IsPrime_returns|]. split; [reflexivity|exact IsPrime_1_diverges].
Qed.

Lemma C10_IsPrime_termination_witness :
  exists power b, 0 <= power <= Z.log2 (97 - 1) /\
    forall fuel, (Z.to_nat power < fuel)%nat -> IsPrime fuel 97 = Ret b.
Proof.
  apply (proj1 C10_IsPrime_termination 97).
  unfold capacity, MaxBits. lia.
Defined.

(** ** The primes up to 31 *)

Lemma small_prime_cases p :
  Z.prime p -> p <= 31 -> p = 2 \/ In p primes.
Proof.
  intros [Hgt Hndiv] Hle.
  assert (Hcomposite : forall n, 1 < n < p -> p mod n = 0 -> False).
  { intros n Hn Hmod. apply (Hndiv n Hn). apply Z.mod_divide; [lia|exact Hmod]. }
  assert (Hcases : p = 2 \/ p = 3 \/ p = 4 \/ p = 5 \/ p = 6 \/ p = 7 \/ p = 8 \/
                   p = 9 \/ p = 10 \/ p = 11 \/ p = 12 \/ p = 13 \/ p = 14 \/
                   p = 15 \/ p = 16 \/ p = 17 \/ p = 18 \/ p = 19 \/ p = 20 \/
                   p = 21 \/ p = 22 \/ p = 23 \/ p = 24 \/ p = 25 \/ p = 26 \/
                   p = 27 \/ p = 28 \/ p = 29 \/ p = 30 \/ p = 31) by lia.
  unfold primes. cbn [In].
  repeat (destruct Hcases as [->|Hcases]; [
    first [ left; reflexivity
          | right; tauto
          | exfalso; apply (Hcomposite 2); [lia|reflexivity]
          | exfalso; apply (Hcomposite 3); [lia|reflexivity]
          | exfalso; apply (Hcomposite 5); [lia|reflexivity] ] | ]).
  subst. right. tauto.
Qed.

Lemma IsPrime_set_member fuel p : In p primes -> IsPrime fuel p = Ret false.
Proof.
  intros Hin. apply IsPrime_filtered, (trial_division_rejects p p Hin).
  apply Z.divide_refl.
Qed.

Lemma IsPrime_2 fuel : IsPrime (S fuel) 2 = Ret false.
Proof.
  apply IsPrime_even; [|reflexivity].
  unfold representable. pose proof capacity_double. cbn [Z.abs]. lia.
Qed.

(** C9.  [IsPrime] returns false at every member of the pre-filter set
    [{3, ..., 31}] (each divides itself) and at 2; so every prime up to 31 is
    classified as composite. *)
Theorem C9_small_primes_rejected :
  (forall fuel p, In p primes -> IsPrime fuel p = Ret false) /\
  (forall fuel, IsPrime (S fuel) 2 = Ret false) /\
  (forall fuel p, Z.prime p -> p <= 31 -> IsPrime (S fuel) p = Ret false).
Proof.
  split; [|split].
  - intros fuel p. apply IsPrime_set_member.
  - exact IsPrime_2.
  - intros fuel p Hp Hle. destruct (small_prime_cases p Hp Hle) as [->|Hin].
    + apply IsPrime_2.
    + apply IsPrime_set_member, Hin.
Qed.

Lemma prime_13 : Z.prime 13.
Proof.
  split; [lia|]. intros n Hn Hdiv. apply Z.mod_divide in Hdiv; [|lia].
  assert (Hcases : n = 2 \/ n = 3 \/ n = 4 \/ n = 5 \/ n = 6 \/ n = 7 \/ n = 8 \/
                   n = 9 \/ n = 10 \/ n = 11 \/ n = 12) by lia.
  repeat (destruct Hcases as [->|Hcases]; [discriminate Hdiv|]).
  subst. discriminate Hdiv.
Qed.

Lemma C9_small_primes_rejected_witness :
  IsPrime 0 31 = Ret false /\ IsPrime 1 13 = Ret false.
Proof.
  split.
  - apply (proj1 C9_small_primes_rejected 0%nat 31). cbn. tauto.
  - apply (proj2 (proj2 C9_small_primes_rejected) 0%nat 13); [exact prime_13|lia].
Defined.

(** ** The decision of the witness check *)

Lemma quot_odd_value value power q :
  1 <= power -> value - 1 = 2 ^ power * q -> 0 < value -> Z.quot value (2 ^ power) = q.
Proof.
  intros Hp E Hv. symmetry.
  assert (2 <= 2 ^ power).
  { replace power with (1 + (power - 1)) by lia. rewrite Z.pow_add_r by lia.
    pose proof (Z.pow_pos_nonneg 2 (power - 1)). lia. }
  apply Z.quot_unique with (r := 1); lia.
Qed.

(** The decision of [IsPrime] in the program's own arithmetic, for every
    odd [value >= 3] of the integer type: the squarings are those of the
    loop, [Z.rem (mul s s) value], whose product is truncated once
    [value] exceeds 2048 bits. *)
Lemma IsPrime_decision_in_type fuel value power q :
  3 <= value < capacity -> Z.odd value = true ->
  trial_division value primes = Ret None ->
  0 <= power -> Z.odd q = true -> value - 1 = 2 ^ power * q ->
  (Z.to_nat power < fuel)%nat ->
  exists surplus,
    BinPower 2 q value = Ret surplus /\
    let accepts :=
      surplus = 1 \/ surplus = value - 1 \/
      exists j, (1 <= j <= Z.to_nat (power - 1))%nat /\
                squarings value j surplus = value - 1 in
    (accepts -> IsPrime fuel value = Ret true) /\
    (~ accepts -> IsPrime fuel value = Ret false) /\
    (IsPrime fuel value = Ret true -> accepts).
Proof.
  intros Hv Hodd Et Hp Hq E Hfuel.
  assert (Hp1 : 1 <= power).
  { destruct (Z.eq_dec power 0) as [->|]; [|lia]. exfalso.
    rewrite Z.pow_0_r in E. replace value with (q + 1) in Hodd by lia.
    rewrite Z.odd_add, Hq in Hodd. discriminate Hodd. }
  destruct (witness_check_exact fuel value power q) as [surplus [Es Ew]];
    try assumption; [lia|].
  rewrite (quot_odd_value value power q) in Es by lia.
  exists surplus. split; [exact Es|]. cbv zeta.
  rewrite IsPrime_survivor by exact Et. rewrite Ew.
  assert (Hsub : sub value 1 = value - 1) by (unfold sub; apply wrap_small; lia).
  assert (Hiff : (surplus =? 1) || (surplus =? value - 1) ||
                 loop_accepts (Z.to_nat (power - 1)) surplus value = true <->
                 surplus = 1 \/ surplus = value - 1 \/
                 exists j, (1 <= j <= Z.to_nat (power - 1))%nat /\
                           squarings value j surplus = value - 1).
  { rewrite !orb_true_iff, !Z.eqb_eq, loop_accepts_spec, Hsub. tauto. }
  destruct ((surplus =? 1) || (surplus =? value - 1) ||
            loop_accepts (Z.to_nat (power - 1)) surplus value).
  - split; [reflexivity|]. split; [|intros _; apply Hiff; reflexivity].
    intros Hn. exfalso. apply Hn, Hiff. reflexivity.
  - split; [|split; [reflexivity|discriminate]].
    intros Ha. apply Hiff in Ha. discriminate Ha.
Qed.

Lemma squaring_exact value s :
  0 <= s < value -> value * value <= capacity ->
  Z.rem (mul s s) value = (s * s) mod value.
Proof.
  intros Hs Hv. rewrite mul_exact by nia. apply Z.rem_mod_nonneg; nia.
Qed.

(** ** GetRandBits and FPrime *)

Lemma lor_below a b n :
  0 <= n -> 0 <= a < 2 ^ n -> 0 <= b < 2 ^ n -> 0 <= Z.lor a b < 2 ^ n.
Proof.
  intros Hn Ha Hb.
  assert (E : Z.lor a b = Z.lor a b mod 2 ^ n).
  { rewrite <- (Z.land_ones (Z.lor a b)) by assumption.
    rewrite Z.land_lor_distr_l, !Z.land_ones by assumption.
    rewrite !Z.mod_small by assumption. reflexivity. }
  rewrite E. apply Z.mod_pos_bound. apply Z.pow_pos_nonneg; lia.
Qed.

Lemma testbit_above v n : 0 <= n -> 0 <= v < 2 ^ n -> Z.testbit v n = false.
Proof.
  intros Hn Hv. rewrite <- (Z.mod_small v (2 ^ n)) by assumption.
  apply Z.mod_pow2_bits_high. lia.
Qed.

Lemma GetRandBits_loop_below bits :
  bits <= MaxBits ->
  forall fuel i value engine r engine',
  0 <= i <= bits -> 0 <= value < 2 ^ i ->
  GetRandBits_loop fuel i bits value engine = Ret (r, engine') ->
  0 <= r < 2 ^ bits.
Proof.
  intros Hbits. induction fuel as [|fuel IH];
    intros i value engine r engine' Hi Hvalue E; [discriminate E|].
  cbn [GetRandBits_loop] in E. destruct (Z.ltb_spec i bits) as [Hlt|Hge].
  - assert (Hgrow : 2 ^ i < 2 ^ (i + 1)) by (apply Z.pow_lt_mono_r; lia).
    assert (Hnext : forall value', 0 <= value' < 2 ^ (i + 1) ->
              GetRandBits_loop fuel (i + 1) bits value'
                {| draws := draws engine; drawn := S (drawn engine) |} = Ret (r, engine') ->
              0 <= r < 2 ^ bits).
    { intros value' Hv' E'. eapply (IH (i + 1) value'); [lia|exact Hv'|exact E']. }
    cbn [uniform_dist] in E.
    destruct (Z.land (draws engine (drawn engine)) 1 =? 0).
    + change (shl 1 i) with (shl temp i) in E.
      rewrite shl_temp_pow2 in E by lia. cbn [bind] in E.
      apply (Hnext (Z.lor value (2 ^ i))); [|exact E].
      apply lor_below; lia.
    + apply (Hnext value); [lia|exact E].
  - injection E as <- _. replace bits with i by lia. exact Hvalue.
Qed.

Lemma GetRandBits_below fuel bits engine r engine' :
  0 <= bits <= MaxBits ->
  GetRandBits fuel bits engine = Ret (r, engine') -> 0 <= r < 2 ^ bits.
Proof.
  intros Hbits E. unfold GetRandBits in E.
  apply (GetRandBits_loop_below bits (proj2 Hbits) fuel 0 0 engine r engine'); [lia| |exact E].
  rewrite Z.pow_0_r. lia.
Qed.

(** What a returned candidate went through in the loop of [FPrime]. *)
Lemma FPrime_loop_returned bits e mask :
  forall fuel engine value,
  FPrime_loop fuel bits e mask engine = Ret value ->
  exists fuel' engine0 rand engine1 m,
    GetRandBits fuel' bits engine0 = Ret (rand, engine1) /\
    value = Z.lor rand mask /\
    rem value e = Ret m /\ m <> 1 /\
    IsPrime fuel' value = Ret true.
Proof.
  induction fuel as [|fuel IH]; intros engine value E; [discriminate E|].
  cbn [FPrime_loop] in E.
  destruct (GetRandBits fuel bits engine) as [[rand engine1]| |] eqn:Eg;
    cbn [bind] in E; try discriminate E.
  destruct (rem (Z.lor rand mask) e) as [m| |] eqn:Em; cbn [bind] in E; try discriminate E.
  destruct (Z.eqb_spec m 1) as [->|Hm]; cbn [negb] in E.
  - apply (IH _ _ E).
  - destruct (IsPrime fuel (Z.lor rand mask)) as [[|]| |] eqn:Ep;
      cbn [bind] in E; try discriminate E.
    + injection E as <-. exists fuel, engine, rand, engine1, m. auto.
    + apply (IH _ _ E).
Qed.

Lemma FPrime_constants : BinPower 2 16 1000000000 = Ret 65536 /\ add 65536 1 = 65537.
Proof. split; vm_compute; reflexivity. Qed.

Lemma FPrime_mask bits :
  2 <= bits <= MaxBits -> shl 3 (bits - 2) = Ret (3 * 2 ^ (bits - 2)).
Proof.
  intros Hbits. rewrite shl_Ret by lia. rewrite Z.shiftl_mul_pow2 by lia.
  rewrite wrap_small; [reflexivity|].
  pose proof (Z.pow_pos_nonneg 2 (bits - 2)).
  assert (2 ^ bits <= capacity) by (unfold capacity; apply Z.pow_le_mono_r; lia).
  replace bits with (2 + (bits - 2)) in H0 at 1 by lia.
  rewrite Z.pow_add_r in H0 by lia. lia.
Qed.

Lemma IsPrime_true_stages fuel value :
  IsPrime fuel value = Ret true ->
  trial_division value primes = Ret None /\ witness_check fuel value = Ret true.
Proof.
  intros E. destruct (trial_division_cases value primes primes_nonzero) as [[Et _]|[Et _]].
  - rewrite IsPrime_filtered in E by exact Et. discriminate E.
  - rewrite IsPrime_survivor in E by exact Et. auto.
Qed.

Section Candidate_shape.

Variables bits rand : Z.
Hypothesis bits_range : 2 <= bits <= MaxBits.
Hypothesis rand_range : 0 <= rand < 2 ^ bits.

Let mask := Z.lor (3 * 2 ^ (bits - 2)) 1.
Let value := Z.lor rand mask.

Lemma mask_bits n : 0 <= n ->
  Z.testbit mask n = Z.testbit 3 (n - (bits - 2)) || (n =? 0).
Proof.
  intros Hn. unfold mask. rewrite Z.lor_spec.
  rewrite Z.mul_pow2_bits by lia. f_equal.
Qed.

Lemma candidate_odd : Z.odd value = true.
Proof.
  rewrite <- Z.bit0_odd. unfold value. rewrite Z.lor_spec, mask_bits by lia.
  cbn [Z.eqb]. rewrite !orb_true_r. reflexivity.
Qed.

Lemma candidate_top_bit : Z.testbit value (bits - 1) = true.
Proof.
  unfold value. rewrite Z.lor_spec, mask_bits by lia.
  replace (bits - 1 - (bits - 2)) with 1 by lia.
  cbn [Z.testbit Pos.testbit orb]. rewrite orb_true_r. reflexivity.
Qed.

Lemma candidate_second_bit : Z.testbit value (bits - 2) = true.
Proof.
  unfold value. rewrite Z.lor_spec, mask_bits by lia.
  replace (bits - 2 - (bits - 2)) with 0 by lia.
  cbn [Z.testbit orb]. rewrite orb_true_r. reflexivity.
Qed.

Lemma candidate_below : 0 <= value < 2 ^ bits.
Proof.
  pose proof (Z.pow_pos_nonneg 2 (bits - 2)).
  assert (E : 2 ^ bits = 4 * 2 ^ (bits - 2)).
  { replace bits with (2 + (bits - 2)) at 1 by lia. rewrite Z.pow_add_r by lia.
    reflexivity. }
  unfold value, mask. apply lor_below; [lia|exact rand_range|].
  apply lor_below; lia.
Qed.

Lemma candidate_log2 : Z.log2 value = bits - 1.
Proof.
  pose proof candidate_below as Hb. apply Z.log2_unique; [lia|].
  replace (Z.succ (bits - 1)) with bits by lia. split; [|apply Hb].
  destruct (Z.le_gt_cases (2 ^ (bits - 1)) value) as [Hle|Hgt]; [exact Hle|].
  pose proof candidate_top_bit as Ht.
  rewrite testbit_above in Ht by lia. discriminate Ht.
Qed.

End Candidate_shape.

Lemma FPrime_returned fuel rnd bits value :
  bits <= MaxBits ->
  FPrime fuel rnd bits = Ret value ->
  2 <= bits /\
  exists rand fuel',
    0 <= rand < 2 ^ bits /\
    value = Z.lor rand (Z.lor (3 * 2 ^ (bits - 2)) 1) /\
    IsPrime fuel' value = Ret true /\
    value mod (2 ^ 16 + 1) <> 1.
Proof.
  intros Hbits E. unfold FPrime in E.
  destruct FPrime_constants as [Ep Ee]. rewrite Ep in E. cbn [bind] in E.
  rewrite Ee in E.
  destruct (Z.le_gt_cases 2 bits) as [Hge|Hlt].
  - split; [exact Hge|].
    rewrite FPrime_mask in E by lia. cbn [bind] in E.
    apply FPrime_loop_returned in E.
    destruct E as [fuel' [engine0 [rand [engine1 [m [Eg [Ev [Em [Hm Ep']]]]]]]]].
    apply GetRandBits_below in Eg; [|lia].
    exists rand, fuel'. split; [exact Eg|]. split; [exact Ev|]. split; [exact Ep'|].
    pose proof (candidate_below bits rand (conj Hge Hbits) Eg) as Hb.
    rewrite <- Ev in Hb.
    rewrite rem_Ret in Em by lia.
    assert (Em' : Z.rem value 65537 = m) by congruence.
    rewrite Z.rem_mod_nonneg in Em' by lia.
    change (2 ^ 16 + 1) with 65537. lia.
  - unfold shl in E. destruct (Z.ltb_spec (bits - 2) 0); [discriminate E|lia].
Qed.




(** ** ExtendedEuclidian *)

Lemma ExtendedEuclidian_zero fuel phi : ExtendedEuclidian (S fuel) 0 phi = Ret (0, 1).
Proof. reflexivity. Qed.

(** Bezout coefficients with their sizes: the products and differences of
    the recursion stay below the second argument, so nothing is truncated. *)
Lemma ExtendedEuclidian_exact :
  forall e, 0 <= e -> forall phi, 0 <= phi < capacity -> e < capacity ->
  exists x y,
    (forall fuel, (Z.to_nat e < fuel)%nat -> ExtendedEuclidian fuel e phi = Ret (x, y)) /\
    e * x + phi * y = Z.gcd e phi /\
    Z.abs x <= Z.max 1 phi /\ Z.abs y <= Z.max 1 e.
Proof.
  intros e He. generalize He. pattern e. apply Z_lt_induction; [|exact He].
  clear e He. intros e IH He phi Hphi Hcap.
  destruct (Z.eq_dec e 0) as [->|Hnz].
  - exists 0, 1. split; [|split; [|lia]].
    + intros [|fuel] Hfuel; [lia|reflexivity].
    + rewrite Z.gcd_0_l. lia.
  - pose proof (Z.mod_pos_bound phi e ltac:(lia)) as Hr.
    pose proof (Z.div_mod phi e Hnz) as Hdm.
    assert (Hq : 0 <= phi / e) by (apply Z.div_pos; lia).
    destruct (IH (phi mod e) Hr ltac:(lia) e ltac:(lia) ltac:(lia))
      as [x1 [y1 [Hrun [Hbez [Hx1 Hy1]]]]].
    rewrite Z.gcd_mod in Hbez by assumption.
    assert (Hstep : forall fuel, (Z.to_nat e < S fuel)%nat ->
              ExtendedEuclidian (S fuel) e phi =
              Ret (sub y1 (mul (phi / e) x1), x1)).
    { intros fuel Hfuel. cbn [ExtendedEuclidian].
      destruct (Z.eqb_spec e 0) as [|_]; [contradiction|].
      rewrite rem_Ret, Z.rem_mod_nonneg by lia. cbn [bind].
      rewrite Hrun by lia. cbn [bind fst snd].
      rewrite div_Ret, Z.quot_div_nonneg by lia. reflexivity. }
    destruct (Z.eq_dec (phi mod e) 0) as [Hz|Hpos].
    + (* e divides phi: the inner call is the base case *)
      assert (E1 : x1 = 0 /\ y1 = 1).
      { specialize (Hrun 1%nat). rewrite Hz in Hrun. cbn in Hrun.
        assert (Ret (0, 1) = Ret (x1, y1)) as Hinj by (apply Hrun; lia).
        split; congruence. }
      destruct E1 as [-> ->].
      exists 1, 0. split; [|split; [|lia]].
      * intros [|fuel] Hfuel; [lia|]. rewrite Hstep by assumption.
        unfold mul, sub. rewrite Z.mul_0_r.
        replace (wrap 0) with 0 by reflexivity.
        rewrite wrap_small by (pose proof capacity_pos; lia). reflexivity.
      * rewrite <- Hbez. lia.
    + exists (y1 - phi / e * x1), x1.
      assert (Hprod : Z.abs (phi / e * x1) <= phi / e * e).
      { rewrite Z.abs_mul, (Z.abs_eq (phi / e)) by assumption.
        apply Z.mul_le_mono_nonneg_l; lia. }
      split; [|split; [|split; [|lia]]].
      * intros [|fuel] Hfuel; [lia|]. rewrite Hstep by assumption.
        unfold mul, sub.
        rewrite (wrap_representable (phi / e * x1)) by (unfold representable; lia).
        rewrite wrap_representable by (unfold representable; lia). reflexivity.
      * rewrite <- Hbez.
        replace (phi * x1) with ((e * (phi / e) + phi mod e) * x1)
          by (rewrite <- Hdm; reflexivity).
        ring.
      * lia.
Qed.

(** C7.  For non-negative [a] and [b] of the integer type,
    [ExtendedEuclidian a b] returns, and the pair [(x, y)] it returns
    satisfies [a * x + b * y = gcd a b], whether or not [a] and [b] are
    coprime; at [a = 0] the pair is [(0, 1)]. *)
Theorem C7_ExtendedEuclidian_bezout :
  (forall a b, 0 <= a < capacity -> 0 <= b < capacity ->
     exists x y,
       (forall fuel, (Z.to_nat a < fuel)%nat ->
          ExtendedEuclidian fuel a b = Ret (x, y)) /\
       a * x + b * y = Z.gcd a b) /\
  (forall fuel b, ExtendedEuclidian (S fuel) 0 b = Ret (0, 1)).
Proof.
  split.
  - intros a b Ha Hb.
    destruct (ExtendedEuclidian_exact a (proj1 Ha) b Hb (proj2 Ha))
      as [x [y [Hrun [Hbez _]]]].
    exists x, y. auto.
  - intros fuel b. reflexivity.
Qed.

Lemma C7_ExtendedEuclidian_bezout_witness :
  exists x y,
    (forall fuel, (Z.to_nat 12 < fuel)%nat ->
       ExtendedEuclidian fuel 12 18 = Ret (x, y)) /\
    12 * x + 18 * y = Z.gcd 12 18.
Proof.
  apply (proj1 C7_ExtendedEuclidian_bezout 12 18);
    unfold capacity, MaxBits; lia.
Defined.

(** ** GenerateRSAKeys *)

Lemma ExtendedEuclidian_fuel_mono fuel :
  forall e phi r, ExtendedEuclidian fuel e phi = Ret r ->
  forall fuel', (fuel <= fuel')%nat -> ExtendedEuclidian fuel' e phi = Ret r.
Proof.
  induction fuel as [|fuel IH]; intros e phi r E fuel' Hle; [discriminate E|].
  destruct fuel' as [|fuel']; [lia|].
  cbn [ExtendedEuclidian] in *. destruct (e =? 0); [exact E|].
  destruct (rem phi e) as [m| |]; cbn [bind] in *; try discriminate E.
  destruct (ExtendedEuclidian fuel m e) as [tmp| |] eqn:Erec;
    cbn [bind] in E; try discriminate E.
  rewrite (IH _ _ _ Erec fuel') by lia. exact E.
Qed.

Lemma GenerateRSAKeys_loop_returned phi bitsCount :
  forall fuel rd k openExp privateExp,
  GenerateRSAKeys_loop fuel rd k phi bitsCount = Ret (openExp, privateExp) ->
  exists fuel' k' y,
    GeneratePrime fuel' (rd k') (Z.min bitsCount 32) = Ret openExp /\
    ExtendedEuclidian fuel' openExp phi = Ret (privateExp, y) /\
    0 <= privateExp.
Proof.
  induction fuel as [|fuel IH]; intros rd k openExp privateExp E; [discriminate E|].
  cbn [GenerateRSAKeys_loop] in E.
  destruct (GeneratePrime fuel (rd k) (Z.min bitsCount 32)) as [e| |] eqn:Eg;
    cbn [bind] in E; try discriminate E.
  destruct (ExtendedEuclidian fuel e phi) as [[x y]| |] eqn:Ee;
    cbn [bind fst] in E; try discriminate E.
  destruct (Z.ltb_spec x 0) as [Hneg|Hpos].
  - apply (IH _ _ _ _ E).
  - assert (e = openExp /\ x = privateExp) as [<- <-] by (split; congruence).
    exists fuel, k, y. auto.
Qed.

(** The exponents of a returned pair, for a totient that fits the type. *)
Lemma returned_exponents fuel rnd bitsCount phi e d y fuel' :
  GeneratePrime fuel rnd (Z.min bitsCount 32) = Ret e ->
  ExtendedEuclidian fuel' e phi = Ret (d, y) ->
  0 <= d -> 2 ^ bitsCount <= phi < capacity ->
  0 < e < phi /\ 0 < d < phi /\ (e * d) mod phi = Z.gcd e phi.
Proof.
  intros Eg Ee Hd Hphi. unfold GeneratePrime in Eg.
  apply FPrime_returned in Eg; [|unfold MaxBits; lia].
  destruct Eg as [Hb [rand [fuel0 [Hrand [Ev [_ _]]]]]].
  assert (Hrange : 2 <= Z.min bitsCount 32 <= MaxBits) by (unfold MaxBits; lia).
  pose proof (candidate_below _ rand Hrange Hrand) as Hbelow.
  pose proof (candidate_odd (Z.min bitsCount 32) rand Hrange) as Hodd.
  rewrite <- Ev in Hbelow, Hodd.
  assert (He0 : 0 < e).
  { destruct (Z.eq_dec e 0) as [->|]; [discriminate Hodd|lia]. }
  assert (Hle : 2 ^ Z.min bitsCount 32 <= 2 ^ bitsCount)
    by (apply Z.pow_le_mono_r; lia).
  assert (He : e < phi) by lia.
  destruct (ExtendedEuclidian_exact e ltac:(lia) phi ltac:(lia) ltac:(lia))
    as [x [y' [Hrun [Hbez [Hx _]]]]].
  assert (Exy : (d, y) = (x, y')).
  { pose proof (ExtendedEuclidian_fuel_mono _ _ _ _ Ee
                  (Nat.max fuel' (S (Z.to_nat e))) ltac:(lia)) as E1.
    rewrite Hrun in E1 by lia. congruence. }
  injection Exy as -> ->.
  pose proof (Z.gcd_nonneg e phi) as Hg0.
  assert (Hg : 0 < Z.gcd e phi <= e).
  { split.
    - destruct (Z.eq_dec (Z.gcd e phi) 0) as [Hz|]; [|lia].
      apply Z.gcd_eq_0_l in Hz. lia.
    - apply Z.divide_pos_le; [lia|apply Z.gcd_divide_l]. }
  assert (Hndiv : ~ (phi | Z.gcd e phi)).
  { intros Hdiv. apply Z.divide_pos_le in Hdiv; lia. }
  assert (Hx0 : x <> 0).
  { intros ->. apply Hndiv. exists y'. lia. }
  assert (Hxphi : x <> phi).
  { intros ->. apply Hndiv. exists (e + y'). lia. }
  split; [lia|]. split; [lia|].
  symmetry. apply Z.mod_unique with (q := - y'); lia.
Qed.

Lemma odd_bit_length p bitsCount :
  2 <= bitsCount -> Z.odd p = true -> 2 ^ (bitsCount - 1) <= p ->
  2 * 2 ^ (bitsCount - 2) <= p - 1.
Proof.
  intros Hb Hodd Hp.
  assert (E : 2 ^ (bitsCount - 1) = 2 * 2 ^ (bitsCount - 2)).
  { replace (bitsCount - 1) with (Z.succ (bitsCount - 2)) by lia.
    apply Z.pow_succ_r. lia. }
  rewrite Z.odd_spec in Hodd. destruct Hodd as [k Hk]. lia.
Qed.

(** C3 (as amended).  For odd [p] and [q] of [bitsCount] bits whose product
    fits the integer type (odd primes among them), whenever
    [GenerateRSAKeys p q bitsCount] returns, both keys carry the modulus
    [p * q], the exponents satisfy [0 < e < phi] and [0 < d < phi] with
    [phi = (p - 1) * (q - 1)], and [e * d] is congruent to [gcd e phi] modulo
    [phi]; so [e * d] is congruent to 1 when [gcd e phi = 1], which the
    code does not check. *)
Theorem C3_GenerateRSAKeys_exponents fuel rd p q bitsCount keys cerr :
  Z.odd p = true -> Z.odd q = true ->
  2 ^ (bitsCount - 1) <= p < 2 ^ bitsCount ->
  2 ^ (bitsCount - 1) <= q < 2 ^ bitsCount ->
  p * q < capacity ->
  GenerateRSAKeys fuel rd p q bitsCount = Ret (keys, cerr) ->
  let phi := (p - 1) * (q - 1) in
  let e := fst (PublicKey keys) in
  let d := fst (PrivateKey keys) in
  snd (PublicKey keys) = p * q /\ snd (PrivateKey keys) = p * q /\
  0 < e < phi /\ 0 < d < phi /\
  (e * d) mod phi = Z.gcd e phi /\
  (Z.gcd e phi = 1 -> (e * d) mod phi = 1).
Proof.
  intros Hp Hq Hpl Hql Hfit E. cbv zeta.
  assert (Hp1 : 1 <= p).
  { rewrite Z.odd_spec in Hp. destruct Hp as [k Hk].
    pose proof (Z.pow_nonneg 2 (bitsCount - 1)). lia. }
  assert (Hq1 : 1 <= q).
  { rewrite Z.odd_spec in Hq. destruct Hq as [k Hk].
    pose proof (Z.pow_nonneg 2 (bitsCount - 1)). lia. }
  unfold GenerateRSAKeys in E.
  assert (Hn : mul p q = p * q) by (apply mul_exact; lia).
  assert (Hphi : mul (sub p 1) (sub q 1) = (p - 1) * (q - 1)).
  { unfold sub. rewrite !wrap_small by nia. apply mul_exact; nia. }
  rewrite Hn, Hphi in E.
  destruct (GenerateRSAKeys_loop fuel rd 0 ((p - 1) * (q - 1)) bitsCount)
    as [[e d]| |] eqn:El; cbn [bind fst snd] in E; try discriminate E.
  apply GenerateRSAKeys_loop_returned in El.
  destruct El as [fuel' [k' [y [Eg [Ee Hd]]]]].
  assert (Hbits : 2 <= bitsCount).
  { unfold GeneratePrime in Eg. apply FPrime_returned in Eg; [|unfold MaxBits]; lia. }
  assert (Hbig : 2 ^ bitsCount <= (p - 1) * (q - 1)).
  { pose proof (odd_bit_length p bitsCount Hbits Hp (proj1 Hpl)).
    pose proof (odd_bit_length q bitsCount Hbits Hq (proj1 Hql)).
    assert (0 < 2 ^ (bitsCount - 2)) by (apply Z.pow_pos_nonneg; lia).
    replace bitsCount with (2 + (bitsCount - 2)) at 1 by lia.
    rewrite Z.pow_add_r by lia. nia. }
  destruct (returned_exponents fuel' (rd k') bitsCount ((p - 1) * (q - 1)) e d y fuel'
              Eg Ee Hd) as [He [Hd' Hcong]]; [nia|].
  destruct (rem (mul e d) ((p - 1) * (q - 1))) as [check| |];
    cbn [bind] in E; try discriminate E.
  assert (Ek : keys = TRSAKeys_ctor e d (p * q)) by congruence.
  subst keys. cbn [TRSAKeys_ctor PublicKey PrivateKey fst snd].
  repeat (split; [first [reflexivity|lia|exact Hcong]|]).
  intros Hg. rewrite Hcong. exact Hg.
Qed.

Lemma C3_GenerateRSAKeys_exponents_witness :
  let keys := TRSAKeys_ctor 53 197 (37 * 59) in
  let phi := (37 - 1) * (59 - 1) in
  let e := fst (PublicKey keys) in
  let d := fst (PrivateKey keys) in
  snd (PublicKey keys) = 37 * 59 /\ snd (PrivateKey keys) = 37 * 59 /\
  0 < e < phi /\ 0 < d < phi /\
  (e * d) mod phi = Z.gcd e phi /\
  (Z.gcd e phi = 1 -> (e * d) mod phi = 1).
Proof.
  apply (C3_GenerateRSAKeys_exponents 20 (fun _ => draws_53) 37 59 6
           (TRSAKeys_ctor 53 197 (37 * 59)) []);
    first [reflexivity | lia | unfold capacity, MaxBits; lia].
Defined.

(** ** Primality certificates by trial division *)

Lemma no_divisor_from_prime fuel :
  forall d p, 1 < d -> 1 < p ->
  (forall n, 1 < n < d -> ~ (n | p)) ->
  no_divisor_from fuel d p = true -> Z.prime p.
Proof.
  induction fuel as [|fuel IH]; intros d p Hd Hp Hbelow E; [discriminate E|].
  cbn [no_divisor_from] in E. destruct (Z.ltb_spec p (d * d)) as [Hsq|Hsq].
  - split; [exact Hp|]. intros n Hn [m Hm].
    destruct (Z.lt_ge_cases n d) as [Hlt|Hge].
    + apply (Hbelow n); [lia|]. exists m. exact Hm.
    + apply (Hbelow m); [nia|]. exists n. lia.
  - destruct (Z.eqb_spec (p mod d) 0) as [|Hmod]; [discriminate E|].
    apply (IH (d + 1) p); [lia|exact Hp| |exact E].
    intros n Hn Hdiv. destruct (Z.eq_dec n d) as [->|Hne].
    + apply Hmod. apply Z.mod_divide; [lia|exact Hdiv].
    + apply (Hbelow n); [lia|exact Hdiv].
Qed.

Lemma trial_division_certificate fuel p :
  1 < p -> no_divisor_from fuel 2 p = true -> Z.prime p.
Proof.
  intros Hp E. apply (no_divisor_from_prime fuel 2 p); [lia|exact Hp| |exact E].
  intros n Hn. lia.
Qed.

(** C3 counterexample.  2221 and 2399 are odd primes of 12 bits, and 4033
    divides [phi = 2220 * 2398].  [GenerateRSAKeys] accepts the candidate
    4033, for which [ExtendedEuclidian] yields the non-negative coefficient
    1, writes its warning and returns the pair: [e * d] is 4033 modulo
    [phi], not 1. *)
Lemma C3_counterexample :
  let p := 2221 in
  let q := 2399 in
  let phi := (p - 1) * (q - 1) in
  Z.prime p /\ Z.prime q /\ Z.odd p = true /\ Z.odd q = true /\
  2 ^ (12 - 1) <= p < 2 ^ 12 /\ 2 ^ (12 - 1) <= q < 2 ^ 12 /\
  GenerateRSAKeys 40 (fun _ => draws_4033) p q 12 =
    Ret (TRSAKeys_ctor 4033 1 (p * q), [warning_incorrect_exps]) /\
  (4033 * 1) mod phi = 4033 /\ (4033 * 1) mod phi <> 1.
Proof.
  cbv zeta.
  split; [apply (trial_division_certificate 60); [lia|vm_compute; reflexivity]|].
  split; [apply (trial_division_certificate 60); [lia|vm_compute; reflexivity]|].
  split; [reflexivity|]. split; [reflexivity|].
  split; [lia|]. split; [lia|].
  split; [vm_compute; reflexivity|].
  split; [reflexivity|discriminate].
Qed.

(** ** The arithmetic of RSA *)

Lemma pow_fermat_exponent p m j :
  Z.prime p -> 0 <= j -> m ^ (1 + (p - 1) * j) mod p = m mod p.
Proof.
  intros Hp Hj. pose proof (Z.prime_ge_2 p Hp) as Hp2.
  rewrite Z.pow_add_r, Z.pow_1_r, Z.pow_mul_r by nia.
  rewrite Z.mul_mod by lia.
  destruct (Z.eq_dec (m mod p) 0) as [Hz|Hnz].
  - rewrite Hz, Z.mul_0_l. apply Z.mod_0_l. lia.
  - rewrite <- (Z.mod_pow_l (m ^ (p - 1))).
    rewrite (Z.fermat_nz p m Hp Hnz), Z.pow_1_l by assumption.
    rewrite (Z.mod_small 1) by lia. rewrite Z.mul_1_r. apply Z.mod_mod. lia.
Qed.

Lemma distinct_primes_coprime p q :
  Z.prime p -> Z.prime q -> p <> q -> Z.gcd p q = 1.
Proof.
  intros Hp Hq Hne. apply Z.coprime_prime_l; [exact Hp|].
  intros Hdiv. apply Hne. apply Z.divide_prime_prime; assumption.
Qed.

Lemma rsa_congruence p q E m :
  Z.prime p -> Z.prime q -> p <> q ->
  0 <= E -> E mod ((p - 1) * (q - 1)) = 1 ->
  m ^ E mod (p * q) = m mod (p * q).
Proof.
  intros Hp Hq Hne HE Hmod.
  pose proof (Z.prime_ge_2 p Hp) as Hp2. pose proof (Z.prime_ge_2 q Hq) as Hq2.
  assert (Hphi : 0 < (p - 1) * (q - 1)) by nia.
  pose proof (Z.div_mod E ((p - 1) * (q - 1)) ltac:(lia)) as Hdm.
  rewrite Hmod in Hdm.
  assert (Hc : 0 <= E / ((p - 1) * (q - 1))) by (apply Z.div_pos; lia).
  set (c := E / ((p - 1) * (q - 1))) in *.
  assert (Ep : m ^ E mod p = m mod p).
  { replace E with (1 + (p - 1) * ((q - 1) * c)) by lia.
    apply pow_fermat_exponent; [exact Hp|nia]. }
  assert (Eq : m ^ E mod q = m mod q).
  { replace E with (1 + (q - 1) * ((p - 1) * c)) by lia.
    apply pow_fermat_exponent; [exact Hq|nia]. }
  apply Z.cong_iff_0 in Ep. apply Z.cong_iff_0 in Eq.
  apply Z.mod_divide in Ep; [|lia]. apply Z.mod_divide in Eq; [|lia].
  apply Z.cong_iff_0. apply Z.mod_divide; [nia|].
  destruct Ep as [x Hx]. rewrite Hx in *.
  rewrite Z.mul_comm in Eq.
  apply Z.gauss in Eq; [|apply distinct_primes_coprime; auto].
  destruct Eq as [y Hy]. exists y. lia.
Qed.

(** C1 (as amended).  For a KeyPair [{(e, n), (d, n)}] with [n = p * q] for
    distinct primes [p] and [q], positive exponents with [e * d] congruent
    to 1 modulo [(p - 1) * (q - 1)], and [n * n <= 2^4096] (so the products
    of residues fit the integer type), [Decode (Encode m (e, n)) (d, n)]
    returns [m] for every [0 <= m < n]. *)
Theorem C1_round_trip p q e d m :
  Z.prime p -> Z.prime q -> p <> q ->
  0 < e -> 0 < d -> (e * d) mod ((p - 1) * (q - 1)) = 1 ->
  (p * q) * (p * q) <= capacity ->
  0 <= m < p * q ->
  (c <- snd (Encode m (e, p * q)) ;; Decode c (d, p * q)) = Ret m.
Proof.
  intros Hp Hq Hne He Hd Hed Hfit Hm.
  pose proof (Z.prime_ge_2 p Hp) as Hp2. pose proof (Z.prime_ge_2 q Hq) as Hq2.
  assert (Hn : 1 < p * q) by nia.
  unfold Encode, Decode. cbn [fst snd].
  rewrite BinPower_exact by (try lia; nia). cbn [bind].
  pose proof (Z.mod_pos_bound (m ^ e) (p * q) ltac:(lia)) as Hc.
  rewrite BinPower_exact by (try lia; nia).
  f_equal. rewrite Z.mod_pow_l, <- Z.pow_mul_r by lia.
  rewrite (rsa_congruence p q (e * d) m) by (try assumption; nia).
  apply Z.mod_small. exact Hm.
Qed.

Lemma prime_61 : Z.prime 61.
Proof. apply (trial_division_certificate 10); [lia|reflexivity]. Qed.

Lemma prime_53 : Z.prime 53.
Proof. apply (trial_division_certificate 10); [lia|reflexivity]. Qed.

Lemma C1_round_trip_witness :
  (c <- snd (Encode 65 (17, 61 * 53)) ;; Decode c (2753, 61 * 53)) = Ret 65.
Proof.
  apply (C1_round_trip 61 53 17 2753 65);
    first [exact prime_61 | exact prime_53 | discriminate | reflexivity
          | unfold capacity, MaxBits; lia].
Defined.

(** ** Primality certificates for Proth numbers *)

Lemma prime_divisor_exists n : 1 < n -> exists r, Z.prime r /\ (r | n).
Proof.
  intros Hn. assert (H0 : 0 <= n) by lia. revert Hn. pattern n.
  apply Z_lt_induction; [|exact H0]. clear n H0. intros n IH Hn.
  destruct (prime_dec n) as [Hp|Hnp].
  - exists n. split; [apply prime_alt, Hp|apply Z.divide_refl].
  - destruct (not_prime_divide n Hn Hnp) as [d [Hd Hdiv]].
    destruct (IH d ltac:(lia) ltac:(lia)) as [r [Hr Hrd]].
    exists r. split; [exact Hr|]. apply (Z.divide_trans r d n); assumption.
Qed.

Lemma small_prime_factor n :
  1 < n -> ~ Z.prime n -> exists r, Z.prime r /\ (r | n) /\ r * r <= n.
Proof.
  intros Hn Hnp. rewrite prime_alt in Hnp.
  destruct (not_prime_divide n Hn Hnp) as [d [Hd [m Hm]]].
  assert (Hm1 : 1 < m) by nia.
  destruct (Z.le_gt_cases d m) as [Hle|Hgt].
  - destruct (prime_divisor_exists d ltac:(lia)) as [r [Hr Hrd]].
    pose proof (Z.prime_ge_2 r Hr). pose proof (Z.divide_pos_le r d ltac:(lia) Hrd).
    exists r. split; [exact Hr|]. split; [|nia].
    apply (Z.divide_trans r d n); [exact Hrd|]. exists m. exact Hm.
  - destruct (prime_divisor_exists m ltac:(lia)) as [r [Hr Hrm]].
    pose proof (Z.prime_ge_2 r Hr). pose proof (Z.divide_pos_le r m ltac:(lia) Hrm).
    exists r. split; [exact Hr|]. split; [|nia].
    apply (Z.divide_trans r m n); [exact Hrm|]. exists d. lia.
Qed.

Section Proth.

Variables k t a : Z.
Hypothesis t_pos : 1 <= t.
Hypothesis k_pos : 0 < k.

Let N := k * 2 ^ t + 1.

Hypothesis witness : a ^ (k * 2 ^ (t - 1)) mod N = N - 1.

Lemma proth_N_odd : N = 2 * (k * 2 ^ (t - 1)) + 1.
Proof.
  unfold N. replace t with (1 + (t - 1)) at 1 by lia.
  rewrite Z.pow_add_r by lia. change (2 ^ 1) with 2. ring.
Qed.

(** Every prime factor of [N] is congruent to 1 modulo [2^t]. *)
Lemma proth_prime_factor r : Z.prime r -> (r | N) -> (2 ^ t | r - 1).
Proof.
  intros Hr Hdiv. pose proof (Z.prime_ge_2 r Hr) as Hr2.
  pose proof proth_N_odd as Hodd.
  assert (Hh : 0 < 2 ^ (t - 1)) by (apply Z.pow_pos_nonneg; lia).
  assert (HN : 1 < N) by nia.
  assert (Hr3 : 3 <= r).
  { destruct (Z.eq_dec r 2) as [->|]; [|lia]. destruct Hdiv as [z Hz]. lia. }
  set (X := a ^ (k * 2 ^ (t - 1))) in *.
  assert (HX : X mod r = (-1) mod r).
  { apply Z.cong_iff_0. apply Z.mod_divide; [lia|].
    pose proof (Z.div_mod X N ltac:(lia)) as Hdm. rewrite witness in Hdm.
    destruct Hdiv as [z Hz]. exists (z * (X / N + 1)).
    remember (X / N) as c eqn:Ec. clear Ec. rewrite Hdm, Hz. ring. }
  assert (Hm1 : (-1) mod r = r - 1).
  { symmetry. apply Z.mod_unique with (q := -1); lia. }
  assert (Ha : a mod r <> 0).
  { intros Hz. assert (HX0 : X mod r = 0).
    { unfold X. rewrite <- Z.mod_pow_l, Hz. rewrite Z.pow_0_l by nia.
      apply Z.mod_0_l. lia. }
    lia. }
  pose proof (Z.fermat_nz r a Hr Ha) as Hfermat.
  destruct (odd_part_exists (r - 1)) as [j [s [Hj [Hs Ers]]]]; [lia|].
  assert (Hs0 : 0 < s) by (pose proof (Z.pow_pos_nonneg 2 j); nia).
  destruct (Z.lt_ge_cases j t) as [Hlt|Hge].
  - exfalso. set (u := t - 1 - j).
    assert (Hu : 0 <= u) by (unfold u; lia).
    assert (Y1 : X ^ s mod r = 1).
    { unfold X. rewrite <- Z.pow_mul_r by nia.
      replace (k * 2 ^ (t - 1) * s) with ((r - 1) * (k * 2 ^ u)).
      - assert (0 < 2 ^ u) by (apply Z.pow_pos_nonneg; lia).
        rewrite Z.pow_mul_r by nia.
        rewrite <- Z.mod_pow_l, Hfermat, Z.pow_1_l by nia.
        apply Z.mod_small. lia.
      - rewrite Ers. replace (t - 1) with (j + u) by (unfold u; lia).
        rewrite Z.pow_add_r by lia. ring. }
    assert (Y2 : X ^ s mod r = r - 1).
    { rewrite <- Z.mod_pow_l, HX, Z.mod_pow_l.
      change (-1) with (Z.opp 1).
      rewrite Z.pow_opp_odd by (apply Z.odd_spec; exact Hs).
      rewrite Z.pow_1_l by lia. exact Hm1. }
    lia.
  - exists (2 ^ (j - t) * s). rewrite Ers.
    replace j with ((j - t) + t) at 1 by lia.
    rewrite Z.pow_add_r by lia. ring.
Qed.

Theorem proth : k < 2 ^ t -> Z.prime N.
Proof.
  intros Hk. assert (HT : 0 < 2 ^ t) by (apply Z.pow_pos_nonneg; lia).
  assert (HN : 1 < N) by (unfold N; nia).
  destruct (prime_dec N) as [Hp|Hnp]; [apply prime_alt, Hp|exfalso].
  rewrite <- prime_alt in Hnp.
  destruct (small_prime_factor N HN Hnp) as [r [Hr [Hdiv Hsq]]].
  pose proof (Z.prime_ge_2 r Hr) as Hr2.
  pose proof (proth_prime_factor r Hr Hdiv) as Hcong.
  apply Z.divide_pos_le in Hcong; [|lia].
  unfold N in Hsq. nia.
Qed.

End Proth.

(** ** Checking a Proth certificate on machine words *)

Lemma bn_powmod_spec a e n :
  0 < BigN.to_Z n ->
  BigN.to_Z (bn_powmod a e n) = BigN.to_Z a ^ Z.pos e mod BigN.to_Z n.
Proof.
  intros Hn. induction e as [e IH|e IH|]; cbn [bn_powmod].
  - rewrite BigN.spec_modulo, BigN.spec_mul, BigN.spec_modulo, BigN.spec_mul, IH.
    rewrite Pos2Z.inj_xI.
    replace (2 * Z.pos e + 1) with (Z.pos e + Z.pos e + 1) by lia.
    rewrite !Z.pow_add_r, Z.pow_1_r by lia.
    rewrite <- Z.mul_mod by lia. rewrite Z.mul_mod_idemp_l by lia. reflexivity.
  - rewrite BigN.spec_modulo, BigN.spec_mul, IH. rewrite Pos2Z.inj_xO.
    replace (2 * Z.pos e) with (Z.pos e + Z.pos e) by lia.
    rewrite Z.pow_add_r by lia. rewrite <- Z.mul_mod by lia. reflexivity.
  - rewrite BigN.spec_modulo, Z.pow_1_r. reflexivity.
Qed.

Lemma proth_certificate_sound k t a :
  proth_certificate k t a = true -> Z.prime (k * 2 ^ t + 1).
Proof.
  unfold proth_certificate. cbv zeta.
  rewrite !andb_true_iff, BigN.spec_eqb, Z.eqb_eq, Z.leb_le, !Z.ltb_lt, Z.leb_le.
  intros [[[[Ht Hk] Hkt] Ha] Hcheck].
  assert (HT : 0 < 2 ^ t) by (apply Z.pow_pos_nonneg; lia).
  assert (Hh : 0 < 2 ^ (t - 1)) by (apply Z.pow_pos_nonneg; lia).
  rewrite bn_powmod_spec in Hcheck by (rewrite BigN.spec_N_of_Z; nia).
  rewrite !BigN.spec_N_of_Z in Hcheck by nia.
  rewrite Z2Pos.id in Hcheck by nia.
  apply (proth k t a); assumption.
Qed.

(** ** The decision of the witness check, in exact arithmetic *)

Lemma squarings_exact_squarings value j s :
  0 < value -> value * value <= capacity -> 0 <= s < value ->
  squarings value j s = exact_squarings value j s /\
  0 <= exact_squarings value j s < value.
Proof.
  intros Hv Hfit Hs. unfold squarings, exact_squarings.
  induction j as [|j [IH Hrange]].
  - split; [reflexivity|exact Hs].
  - rewrite !Nat.iter_succ, IH. split.
    + apply squaring_exact; assumption.
    + apply Z.mod_pos_bound. exact Hv.
Qed.

Lemma exact_squarings_pow value j s :
  0 < value -> 0 <= s < value ->
  exact_squarings value j s = s ^ (2 ^ Z.of_nat j) mod value.
Proof.
  intros Hv Hs. unfold exact_squarings. induction j as [|j IH].
  - cbn. rewrite Z.mul_1_r. symmetry. apply Z.mod_small. exact Hs.
  - rewrite Nat.iter_succ, IH.
    assert (0 < 2 ^ Z.of_nat j) by (apply Z.pow_pos_nonneg; lia).
    rewrite <- Z.mul_mod, <- Z.pow_add_r by lia.
    f_equal. f_equal. rewrite Nat2Z.inj_succ, Z.pow_succ_r by lia. ring.
Qed.

(** C5 (as amended).  For an odd [value >= 3] with
    [value * value <= 2^4096] that passes the trial divisions, with
    [value - 1 = 2^power * q] and [q] odd, [surplus = BinPower 2 q value] is
    [2^q mod value], and [IsPrime] returns true exactly when [surplus] is 1
    or [value - 1], or one of at most [power - 1] successive squarings of
    [surplus] modulo [value] is [value - 1]; otherwise it returns false. *)
Theorem C5_IsPrime_witness_decision fuel value power q :
  3 <= value -> value * value <= capacity -> Z.odd value = true ->
  trial_division value primes = Ret None ->
  0 <= power -> Z.odd q = true -> value - 1 = 2 ^ power * q ->
  (Z.to_nat power < fuel)%nat ->
  exists surplus,
    BinPower 2 q value = Ret surplus /\
    surplus = 2 ^ q mod value /\
    let accepts :=
      surplus = 1 \/ surplus = value - 1 \/
      exists j, (1 <= j <= Z.to_nat (power - 1))%nat /\
                exact_squarings value j surplus = value - 1 in
    (accepts -> IsPrime fuel value = Ret true) /\
    (~ accepts -> IsPrime fuel value = Ret false) /\
    (IsPrime fuel value = Ret true -> accepts).
Proof.
  intros Hv Hfit Hodd Et Hp Hq E Hfuel. pose proof capacity_pos as Hc.
  assert (Hq0 : 0 < q) by (pose proof (Z.pow_pos_nonneg 2 power); nia).
  destruct (IsPrime_decision_in_type fuel value power q)
    as [surplus [Es [Hyes [Hno Honly]]]]; try assumption; [nia|].
  assert (Hs : surplus = 2 ^ q mod value).
  { rewrite BinPower_exact in Es by (try lia; nia). congruence. }
  assert (Hrange : 0 <= surplus < value).
  { rewrite Hs. apply Z.mod_pos_bound. lia. }
  assert (Hsame : forall j, squarings value j surplus = exact_squarings value j surplus).
  { intros j. apply squarings_exact_squarings; try assumption. lia. }
  assert (Hiff :
    (surplus = 1 \/ surplus = value - 1 \/
     exists j, (1 <= j <= Z.to_nat (power - 1))%nat /\
               squarings value j surplus = value - 1) <->
    (surplus = 1 \/ surplus = value - 1 \/
     exists j, (1 <= j <= Z.to_nat (power - 1))%nat /\
               exact_squarings value j surplus = value - 1)).
  { split; (intros [H|[H|[j [Hj Ej]]]]; [left; exact H|right; left; exact H|]);
      right; right; exists j; (split; [exact Hj|]);
      [rewrite <- Hsame|rewrite Hsame]; exact Ej. }
  exists surplus. split; [exact Es|]. split; [exact Hs|]. cbv zeta. cbv zeta in Hyes, Hno, Honly.
  split; [|split].
  - intros Ha. apply Hyes, Hiff, Ha.
  - intros Hn. apply Hno. intros Ha. apply Hn, Hiff, Ha.
  - intros Et'. apply Hiff, Honly, Et'.
Qed.

Lemma C5_IsPrime_witness_decision_witness :
  exists surplus,
    BinPower 2 5 41 = Ret surplus /\
    surplus = 2 ^ 5 mod 41 /\
    let accepts :=
      surplus = 1 \/ surplus = 41 - 1 \/
      exists j, (1 <= j <= Z.to_nat (3 - 1))%nat /\
                exact_squarings 41 j surplus = 41 - 1 in
    (accepts -> IsPrime 4 41 = Ret true) /\
    (~ accepts -> IsPrime 4 41 = Ret false) /\
    (IsPrime 4 41 = Ret true -> accepts).
Proof.
  apply (C5_IsPrime_witness_decision 4 41 3 5);
    first [reflexivity | lia | unfold capacity, MaxBits; lia].
Defined.

Lemma bn_powmod_check a e n r :
  0 <= a -> 0 < n -> 0 <= r ->
  BigN.eqb (bn_powmod (BigN.N_of_Z a) e (BigN.N_of_Z n)) (BigN.N_of_Z r) = true ->
  a ^ Z.pos e mod n = r.
Proof.
  intros Ha Hn Hr E. rewrite BigN.spec_eqb, Z.eqb_eq in E.
  rewrite bn_powmod_spec in E by (rewrite BigN.spec_N_of_Z; lia).
  rewrite !BigN.spec_N_of_Z in E by lia. exact E.
Qed.

(** C5 counterexample.  [V = 3 * 2^3168 + 1] is odd, fits the integer type
    and passes the trial divisions; [V - 1 = 2^3168 * 3] and
    [surplus = BinPower 2 3 V = 8].  The 3165th squaring of 8 modulo [V] is
    [V - 1], within the [power - 1 = 3167] squarings of the claim, yet
    [IsPrime] returns false: the 11th product of the loop, [2^6144], is
    truncated to 0 by the 4096-bit type. *)
Lemma C5_counterexample :
  let V := 3 * 2 ^ 3168 + 1 in
  3 <= V < capacity /\ Z.odd V = true /\
  trial_division V primes = Ret None /\
  V - 1 = 2 ^ 3168 * 3 /\ Z.odd 3 = true /\
  BinPower 2 3 V = Ret 8 /\
  (1 <= Z.to_nat 3165 <= Z.to_nat (3168 - 1))%nat /\
  exact_squarings V (Z.to_nat 3165) 8 = V - 1 /\
  squarings V 11 8 = 0 /\
  IsPrime (Z.to_nat 3200) V = Ret false.
Proof.
  cbv zeta.
  split; [unfold capacity, MaxBits; split; vm_compute; [discriminate|reflexivity]|].
  split; [vm_compute; reflexivity|].
  split; [vm_compute; reflexivity|].
  split; [vm_compute; reflexivity|].
  split; [reflexivity|].
  split; [vm_compute; reflexivity|].
  split; [lia|].
  split; [|split; vm_compute; reflexivity].
  rewrite exact_squarings_pow.
  - replace (2 ^ Z.of_nat (Z.to_nat 3165)) with (Z.pos (Z.to_pos (2 ^ 3165)))
      by (vm_compute; reflexivity).
    apply bn_powmod_check;
      [lia|vm_compute; reflexivity|vm_compute; discriminate|vm_compute; reflexivity].
  - vm_compute. reflexivity.
  - split; vm_compute; [discriminate|reflexivity].
Qed.

(** ** A key pair beyond the width of the integer type *)

Lemma prime_P1025 : Z.prime P1025.
Proof. apply (proth_certificate_sound 25166287 1000 3). vm_compute. reflexivity. Qed.

Lemma prime_Q1025 : Z.prime Q1025.
Proof. apply (proth_certificate_sound 25166401 1000 3). vm_compute. reflexivity. Qed.

Lemma BinPower_digits_one base mod_ :
  0 <= base < mod_ -> base < capacity -> 1 < mod_ ->
  BinPower_digits base 1 mod_ = Ret base.
Proof.
  intros Hb Hc Hm. cbn [BinPower_digits bind].
  replace (mul 1 1) with 1 by reflexivity.
  rewrite rem_Ret, Z.rem_small by lia. cbn [bind].
  unfold mul. rewrite Z.mul_1_l, wrap_small by lia.
  rewrite rem_Ret, Z.rem_small by lia. reflexivity.
Qed.

Lemma mul_0_l_exact b : mul 0 b = 0.
Proof. reflexivity. Qed.

Lemma mul_0_r_exact a : mul a 0 = 0.
Proof. unfold mul. rewrite Z.mul_0_r. reflexivity. Qed.

(** Squaring [2^2048] overflows to 0, and 0 stays. *)
Lemma BinPower_digits_overflow mod_ power :
  2 ^ 2048 < mod_ -> (1 < power)%positive ->
  BinPower_digits (2 ^ 2048) power mod_ = Ret 0.
Proof.
  intros Hm. pose proof capacity_split as Hsplit.
  assert (Hbig : 0 < 2 ^ 2048) by (apply Z.pow_pos_nonneg; lia).
  assert (Hsq : mul (2 ^ 2048) (2 ^ 2048) = 0).
  { unfold mul. rewrite wrap_nonneg_mod by nia. rewrite <- Hsplit.
    apply Z.mod_same. lia. }
  assert (Hone : BinPower_digits (2 ^ 2048) 1 mod_ = Ret (2 ^ 2048)).
  { apply BinPower_digits_one; nia. }
  assert (Hzero : rem 0 mod_ = Ret 0) by (rewrite rem_Ret by lia; reflexivity).
  induction power as [h IH|h IH|]; intros Hp; [| |lia].
  - cbn [BinPower_digits]. destruct (Pos.eq_dec h 1) as [->|Hne].
    + rewrite Hone. cbn [bind]. rewrite Hsq, Hzero. cbn [bind].
      rewrite mul_0_l_exact. exact Hzero.
    + rewrite IH by lia. cbn [bind]. rewrite mul_0_l_exact, Hzero. cbn [bind].
      rewrite mul_0_l_exact. exact Hzero.
  - cbn [BinPower_digits]. destruct (Pos.eq_dec h 1) as [->|Hne].
    + rewrite Hone. cbn [bind]. rewrite Hsq, Hzero. reflexivity.
    + rewrite IH by lia. cbn [bind]. rewrite mul_0_l_exact, Hzero. reflexivity.
Qed.

Lemma BinPower_digits_zero_base mod_ power :
  mod_ <> 0 -> BinPower_digits 0 power mod_ = Ret 0.
Proof.
  intros Hm.
  assert (Hzero : rem 0 mod_ = Ret 0) by (rewrite rem_Ret by lia; reflexivity).
  induction power as [h IH|h IH|]; cbn [BinPower_digits].
  - rewrite IH. cbn [bind]. rewrite mul_0_l_exact, Hzero. cbn [bind].
    rewrite mul_0_l_exact. exact Hzero.
  - rewrite IH. cbn [bind]. rewrite mul_0_l_exact, Hzero. reflexivity.
  - cbn [bind]. rewrite rem_Ret by assumption. cbn [bind].
    rewrite mul_0_r_exact. exact Hzero.
Qed.

(** C1 counterexample.  [P1025] and [Q1025] are distinct odd primes; with
    [n = P1025 * Q1025] (which fits the integer type), [e = 3] and [d] its
    inverse modulo [phi = (P1025 - 1) * (Q1025 - 1)], the message
    [m = 2^2048 < n] is encoded to 0, because its square [2^4096] is
    truncated to 0; decoding returns 0, not [m]. *)
Lemma C1_counterexample :
  let p := P1025 in
  let q := Q1025 in
  let n := p * q in
  let phi := (p - 1) * (q - 1) in
  let e := 3 in
  let d := (2 * phi + 1) / 3 in
  let m := 2 ^ 2048 in
  Z.prime p /\ Z.prime q /\ p <> q /\ Z.odd p = true /\ Z.odd q = true /\
  0 < e /\ 0 < d /\ (e * d) mod phi = 1 /\
  0 <= m < n /\ n < capacity /\
  (c <- snd (Encode m (e, n)) ;; Decode c (d, n)) = Ret 0 /\
  m <> 0.
Proof.
  cbv zeta.
  assert (Hn : 2 ^ 2048 < P1025 * Q1025) by (vm_compute; reflexivity).
  split; [exact prime_P1025|]. split; [exact prime_Q1025|].
  split; [vm_compute; discriminate|].
  split; [vm_compute; reflexivity|]. split; [vm_compute; reflexivity|].
  split; [lia|]. split; [vm_compute; reflexivity|].
  split; [vm_compute; reflexivity|].
  split; [split; [apply Z.pow_nonneg; lia|exact Hn]|].
  split; [vm_compute; reflexivity|].
  split; [|apply Z.pow_nonzero; lia].
  unfold Encode, Decode. cbn [fst snd]. change (BinPower (2 ^ 2048) 3 (P1025 * Q1025))
    with (BinPower_digits (2 ^ 2048) 3 (P1025 * Q1025)).
  rewrite BinPower_digits_overflow by (try exact Hn; reflexivity).
  cbn [bind].
  assert (Hd : 0 < (2 * ((P1025 - 1) * (Q1025 - 1)) + 1) / 3) by (vm_compute; reflexivity).
  destruct ((2 * ((P1025 - 1) * (Q1025 - 1)) + 1) / 3) as [|dp|dp]; try lia.
  cbn [BinPower]. apply BinPower_digits_zero_base. lia.
Qed.

(** ** Test vectors *)

Example Encode_65 : Encode 65 (17, 3233) = ([], Ret 2790).
Proof. vm_compute. reflexivity. Qed.

Example Decode_2790 : Decode 2790 (2753, 3233) = Ret 65.
Proof. vm_compute. reflexivity. Qed.

Example Encode_oversize : Encode 3298 (17, 3233) = ([block_is_too_large], Ret 2790).
Proof. vm_compute. reflexivity. Qed.

Example ExtendedEuclidian_17_3120 : ExtendedEuclidian 10 17 3120 = Ret (-367, 2).
Proof. vm_compute. reflexivity. Qed.

Example IsPrime_pseudoprime : IsPrime 10 4033 = Ret true /\ 4033 = 37 * 109.
Proof. split; vm_compute; reflexivity. Qed.

Example FPrime_negative_shift : FPrime 10 draws_53 1 = Throw out_of_range.
Proof. vm_compute. reflexivity. Qed.

(** * Further properties of the program *)

(** ** BinPower: range and zero modulus *)

Lemma wrap_nonneg x : 0 <= x -> 0 <= wrap x.
Proof.
  intros Hx. rewrite wrap_nonneg_mod by assumption.
  apply Z.mod_pos_bound, capacity_pos.
Qed.

Lemma rem_mul_range a b m :
  0 <= a -> 0 <= b -> 0 < m ->
  rem (mul a b) m = Ret (Z.rem (mul a b) m) /\ 0 <= Z.rem (mul a b) m < m.
Proof.
  intros Ha Hb Hm. split; [apply rem_Ret; lia|].
  apply Z.rem_bound_pos; [|exact Hm]. unfold mul. apply wrap_nonneg. nia.
Qed.

Lemma BinPower_digits_range base power mod_ :
  0 <= base -> 0 < mod_ ->
  exists r, BinPower_digits base power mod_ = Ret r /\ 0 <= r < mod_.
Proof.
  intros Hb Hm.
  induction power as [h [v [IH Hv]]|h [v [IH Hv]]|]; cbn [BinPower_digits].
  - rewrite IH. cbn [bind].
    destruct (rem_mul_range v v mod_) as [-> Hs]; try lia. cbn [bind].
    destruct (rem_mul_range (Z.rem (mul v v) mod_) base mod_) as [-> Hr]; try lia.
    eauto.
  - rewrite IH. cbn [bind].
    destruct (rem_mul_range v v mod_) as [-> Hs]; try lia. cbn [bind]. eauto.
  - cbn [bind].
    destruct (rem_mul_range 1 1 mod_) as [-> Hs]; try lia. cbn [bind].
    destruct (rem_mul_range (Z.rem (mul 1 1) mod_) base mod_) as [-> Hr]; try lia.
    eauto.
Qed.

(** X1.  With a non-negative base and a positive modulus, [BinPower] returns a
    reduced residue for every non-zero exponent, whether or not an
    intermediate product was truncated; at exponent 0 it returns 1 without
    reducing, also when the modulus is 1. *)
Theorem BinPower_range base power mod_ :
  0 <= base -> 0 < mod_ ->
  (power <> 0 ->
   exists r, BinPower base power mod_ = Ret r /\ 0 <= r < mod_) /\
  BinPower base 0 mod_ = Ret 1.
Proof.
  intros Hb Hm. split; [|reflexivity]. intros Hp.
  destruct power as [|p|p]; [contradiction| |];
    apply BinPower_digits_range; assumption.
Qed.

Lemma BinPower_range_witness :
  (5 <> 0 -> exists r, BinPower 7 5 1 = Ret r /\ 0 <= r < 1) /\
  BinPower 7 0 1 = Ret 1.
Proof. apply (BinPower_range 7 5 1); lia. Defined.

Lemma BinPower_digits_zero_modulus base power :
  BinPower_digits base power 0 = Throw overflow_error.
Proof.
  induction power as [h IH|h IH|]; cbn [BinPower_digits].
  - rewrite IH. reflexivity.
  - rewrite IH. reflexivity.
  - reflexivity.
Qed.

(** X2.  With modulus 0, [BinPower] throws the division-by-zero error of the
    integer type for every non-zero exponent, and so do [Encode] and
    [Decode] on a key whose modulus is 0; [Encode] still writes its
    diagnostic first when the block is not negative. *)
Theorem BinPower_zero_modulus base power :
  power <> 0 ->
  BinPower base power 0 = Throw overflow_error /\
  Decode base (power, 0) = Throw overflow_error /\
  snd (Encode base (power, 0)) = Throw overflow_error /\
  (0 <= base -> fst (Encode base (power, 0)) = [block_is_too_large]).
Proof.
  intros Hp.
  assert (E : BinPower base power 0 = Throw overflow_error).
  { destruct power as [|p|p]; [contradiction| |]; apply BinPower_digits_zero_modulus. }
  unfold Decode, Encode. cbn [fst snd]. repeat split; try exact E.
  intros Hb. destruct (Z.geb_spec base 0); [reflexivity|lia].
Qed.

Lemma BinPower_zero_modulus_witness :
  BinPower 65 17 0 = Throw overflow_error /\
  Decode 65 (17, 0) = Throw overflow_error /\
  snd (Encode 65 (17, 0)) = Throw overflow_error /\
  (0 <= 65 -> fst (Encode 65 (17, 0)) = [block_is_too_large]).
Proof. apply (BinPower_zero_modulus 65 17). discriminate. Defined.

(** ** Encode and Decode beyond the round trip *)

(** X3.  A block of any size is reduced modulo [n]: with a valid key pair whose
    modulus satisfies [n * n <= 2^4096], decoding the encoding of [m >= 0]
    (with [m * n] within the type) returns [m mod n], which is [m] only
    when [m < n]. *)
Theorem Decode_Encode_reduces p q e d m :
  Z.prime p -> Z.prime q -> p <> q ->
  0 < e -> 0 < d -> (e * d) mod ((p - 1) * (q - 1)) = 1 ->
  (p * q) * (p * q) <= capacity ->
  0 <= m -> m * (p * q) <= capacity ->
  (c <- snd (Encode m (e, p * q)) ;; Decode c (d, p * q)) = Ret (m mod (p * q)) /\
  (p * q <= m -> fst (Encode m (e, p * q)) = [block_is_too_large] /\
                 m mod (p * q) <> m).
Proof.
  intros Hp Hq Hne He Hd Hed Hfit Hm Hmn.
  pose proof (Z.prime_ge_2 p Hp) as Hp2. pose proof (Z.prime_ge_2 q Hq) as Hq2.
  assert (Hn : 1 < p * q) by nia.
  split.
  - unfold Encode, Decode. cbn [fst snd].
    rewrite BinPower_exact by (try lia; nia). cbn [bind].
    pose proof (Z.mod_pos_bound (m ^ e) (p * q) ltac:(lia)) as Hc.
    rewrite BinPower_exact by (try lia; nia).
    f_equal. rewrite Z.mod_pow_l, <- Z.pow_mul_r by lia.
    apply rsa_congruence; try assumption. nia.
  - intros Hle. split.
    + unfold Encode. cbn [fst snd]. destruct (Z.geb_spec m (p * q)); [reflexivity|lia].
    + pose proof (Z.mod_pos_bound m (p * q) ltac:(lia)). lia.
Qed.

Lemma Decode_Encode_reduces_witness :
  (c <- snd (Encode 3298 (17, 61 * 53)) ;; Decode c (2753, 61 * 53))
    = Ret (3298 mod (61 * 53)) /\
  (61 * 53 <= 3298 -> fst (Encode 3298 (17, 61 * 53)) = [block_is_too_large] /\
                     3298 mod (61 * 53) <> 3298).
Proof.
  apply (Decode_Encode_reduces 61 53 17 2753 3298);
    first [exact prime_61 | exact prime_53 | discriminate | reflexivity
          | unfold capacity, MaxBits; lia].
Defined.

(** X4.  [Encode] is multiplicative: for residues [a] and [b] modulo [n] (with
    [n * n <= 2^4096]) the encoding of [a * b mod n] is the product of the
    encodings modulo [n]. *)
Theorem Encode_multiplicative a b e n :
  1 < n -> n * n <= capacity -> 0 <= e -> 0 <= a < n -> 0 <= b < n ->
  exists ca cb,
    snd (Encode a (e, n)) = Ret ca /\
    snd (Encode b (e, n)) = Ret cb /\
    snd (Encode (a * b mod n) (e, n)) = Ret (ca * cb mod n).
Proof.
  intros Hn Hfit He Ha Hb.
  pose proof (Z.mod_pos_bound (a * b) n ltac:(lia)) as Hab.
  unfold Encode. cbn [fst snd].
  rewrite !BinPower_exact by (try lia; nia).
  eexists _, _. split; [reflexivity|]. split; [reflexivity|].
  f_equal. rewrite Z.mod_pow_l, Z.pow_mul_l. apply Z.mul_mod. lia.
Qed.

Lemma Encode_multiplicative_witness :
  exists ca cb,
    snd (Encode 65 (17, 3233)) = Ret ca /\
    snd (Encode 66 (17, 3233)) = Ret cb /\
    snd (Encode (65 * 66 mod 3233) (17, 3233)) = Ret (ca * cb mod 3233).
Proof.
  apply (Encode_multiplicative 65 66 17 3233); unfold capacity, MaxBits; lia.
Defined.

(** ** ExtendedEuclidian: sizes of the coefficients *)

(** X5.  Whenever [ExtendedEuclidian a b] returns on non-negative arguments of
    the integer type, the coefficients are bounded by the opposite argument:
    [|x| <= max 1 b] and [|y| <= max 1 a]. *)
Theorem ExtendedEuclidian_bounds fuel a b x y :
  0 <= a < capacity -> 0 <= b < capacity ->
  ExtendedEuclidian fuel a b = Ret (x, y) ->
  Z.abs x <= Z.max 1 b /\ Z.abs y <= Z.max 1 a.
Proof.
  intros Ha Hb E.
  destruct (ExtendedEuclidian_exact a (proj1 Ha) b Hb (proj2 Ha))
    as [x' [y' [Hrun [_ Hbounds]]]].
  pose proof (ExtendedEuclidian_fuel_mono _ _ _ _ E
                (Nat.max fuel (S (Z.to_nat a))) ltac:(lia)) as E1.
  rewrite Hrun in E1 by lia.
  assert (x' = x /\ y' = y) as [<- <-] by (split; congruence).
  exact Hbounds.
Qed.

Lemma ExtendedEuclidian_bounds_witness :
  Z.abs (-367) <= Z.max 1 3120 /\ Z.abs 2 <= Z.max 1 17.
Proof.
  apply (ExtendedEuclidian_bounds 10 17 3120 (-367) 2);
    first [reflexivity | unfold capacity, MaxBits; lia].
Defined.

(** X6.  When [e > 0] divides [phi], [ExtendedEuclidian e phi] returns [(1, 0)]:
    the first coefficient is non-negative, so the loop of [GenerateRSAKeys]
    accepts such an [e] although it has no inverse modulo [phi]. *)
Theorem ExtendedEuclidian_divisor fuel e phi :
  0 < e -> 0 <= phi -> (e | phi) ->
  ExtendedEuclidian (S (S fuel)) e phi = Ret (1, 0).
Proof.
  intros He Hphi Hdiv. cbn [ExtendedEuclidian].
  destruct (Z.eqb_spec e 0) as [|_]; [lia|].
  rewrite rem_Ret by lia. cbn [bind].
  assert (Hr : Z.rem phi e = 0) by (apply Z.rem_divide; [lia|exact Hdiv]).
  rewrite Hr. cbn [Z.eqb bind fst snd]. rewrite div_Ret by lia. cbn [bind].
  rewrite mul_0_r_exact. reflexivity.
Qed.

Lemma ExtendedEuclidian_divisor_witness :
  ExtendedEuclidian 2 4033 (2220 * 2398) = Ret (1, 0).
Proof.
  apply (ExtendedEuclidian_divisor 0 4033 (2220 * 2398)); [lia|lia|].
  exists 1320. reflexivity.
Defined.

(** ** IsPrime on primes, and what acceptance implies *)

Lemma squarings_pow v q j :
  1 < v -> v * v <= capacity -> 0 <= q ->
  squarings v j (2 ^ q mod v) = 2 ^ (q * 2 ^ Z.of_nat j) mod v.
Proof.
  intros Hv Hfit Hq. induction j as [|j IH].
  - cbn. rewrite Z.mul_1_r. reflexivity.
  - unfold squarings in *. rewrite Nat.iter_succ, IH.
    rewrite squaring_exact by (try apply Z.mod_pos_bound; lia).
    rewrite <- Z.mul_mod by lia. rewrite <- Z.pow_add_r by nia.
    f_equal. f_equal. rewrite Nat2Z.inj_succ, Z.pow_succ_r by lia. ring.
Qed.

Lemma sqrt_of_one_mod_prime p x :
  Z.prime p -> 0 <= x < p -> (x * x) mod p = 1 -> x = 1 \/ x = p - 1.
Proof.
  intros Hp Hx Hsq. pose proof (Z.prime_ge_2 p Hp) as Hp2.
  assert (Hdiv : (p | (x - 1) * (x + 1))).
  { apply Z.mod_divide; [lia|].
    replace ((x - 1) * (x + 1)) with (x * x - 1) by ring.
    apply Z.cong_iff_0. rewrite Hsq. symmetry. apply Z.mod_small. lia. }
  apply Z.divide_prime_mul in Hdiv; [|exact Hp].
  destruct Hdiv as [[k Hk]|[k Hk]]; [left|right].
  - assert (k = 0) by nia. lia.
  - assert (k = 1) by nia. lia.
Qed.

(** The chain [2^q, 2^(2q), 2^(4q), ...] modulo a prime: if it reaches 1,
    it started at 1 or passed through [p - 1]. *)
Lemma squaring_chain_prime p q :
  Z.prime p -> 0 <= q ->
  forall j : nat,
  2 ^ (q * 2 ^ Z.of_nat j) mod p = 1 ->
  2 ^ q mod p = 1 \/
  exists i : nat, (i < j)%nat /\ 2 ^ (q * 2 ^ Z.of_nat i) mod p = p - 1.
Proof.
  intros Hp Hq. pose proof (Z.prime_ge_2 p Hp) as Hp2.
  induction j as [|j IH]; intros E.
  - left. cbn in E. rewrite Z.mul_1_r in E. exact E.
  - assert (0 < 2 ^ Z.of_nat j) by (apply Z.pow_pos_nonneg; lia).
    replace (q * 2 ^ Z.of_nat (S j))
      with (q * 2 ^ Z.of_nat j + q * 2 ^ Z.of_nat j) in E
      by (rewrite Nat2Z.inj_succ, Z.pow_succ_r by lia; ring).
    rewrite Z.pow_add_r, Z.mul_mod in E by nia.
    apply sqrt_of_one_mod_prime in E;
      [|exact Hp|apply Z.mod_pos_bound; lia].
    destruct E as [E|E].
    + destruct (IH E) as [H0|[i [Hi Ei]]]; [left; exact H0|].
      right. exists i. split; [lia|exact Ei].
    + right. exists j. split; [lia|exact E].
Qed.

Lemma prime_survives_trial_division p :
  Z.prime p -> 31 < p -> trial_division p primes = Ret None.
Proof.
  intros Hp Hbig.
  destruct (trial_division_cases p primes primes_nonzero) as [[_ Hex]|[E _]];
    [exfalso|exact E].
  apply Exists_exists in Hex. destruct Hex as [d [Hin Hrem]].
  assert (Hd : 1 < d < p).
  { unfold primes in Hin. cbn [In] in Hin.
    repeat (destruct Hin as [<-|Hin]; [lia|]). contradiction. }
  apply Z.rem_divide in Hrem; [|lia].
  destruct Hp as [_ Hndiv]. exact (Hndiv d Hd Hrem).
Qed.

(** X7.  [IsPrime] never rejects a prime above 31: for a prime [p] with
    [p * p <= 2^4096] it returns true as soon as the fuel exceeds
    [log2 p]. *)
Theorem IsPrime_accepts_primes p fuel :
  Z.prime p -> 31 < p -> p * p <= capacity ->
  (Z.to_nat (Z.log2 p) < fuel)%nat ->
  IsPrime fuel p = Ret true.
Proof.
  intros Hp Hbig Hfit Hfuel. pose proof capacity_pos as Hc.
  destruct (odd_part_exists (p - 1)) as [power [q [Hpow [Hq E]]]]; [lia|].
  assert (Hq0 : 0 < q) by (pose proof (Z.pow_pos_nonneg 2 power); nia).
  assert (Hlog : power <= Z.log2 p).
  { transitivity (Z.log2 (p - 1)); [|apply Z.log2_le_mono; lia].
    apply Z.log2_le_pow2; [lia|]. pose proof (Z.pow_pos_nonneg 2 power). nia. }
  assert (Hodd : Z.odd p = true).
  { destruct (Z.odd p) eqn:Ho; [reflexivity|exfalso].
    rewrite <- Z.negb_even in Ho. apply negb_false_iff, Z.even_spec in Ho.
    destruct Ho as [h Hh]. destruct Hp as [_ Hndiv].
    apply (Hndiv 2); [lia|]. exists h. lia. }
  assert (Hp1 : 1 <= power).
  { destruct (Z.eq_dec power 0) as [->|]; [|lia]. exfalso.
    rewrite Z.pow_0_r in E. replace p with (q + 1) in Hodd by lia.
    rewrite Z.odd_add, Hq in Hodd. discriminate Hodd. }
  rewrite IsPrime_survivor by (apply prime_survives_trial_division; assumption).
  destruct (witness_check_exact fuel p power q) as [surplus [Es ->]];
    try assumption; try nia.
  rewrite (quot_odd_value p power q) in Es by lia.
  rewrite BinPower_exact in Es by (try lia; nia).
  assert (Hs : surplus = 2 ^ q mod p) by congruence.
  f_equal.
  assert (Hend : 2 ^ (q * 2 ^ Z.of_nat (Z.to_nat power)) mod p = 1).
  { rewrite Z2Nat.id by lia. replace (q * 2 ^ power) with (p - 1) by lia.
    apply Z.fermat_nz; [exact Hp|]. rewrite Z.mod_small; lia. }
  destruct (squaring_chain_prime p q Hp ltac:(lia) _ Hend) as [H0|[i [Hi Ei]]].
  - rewrite Hs, H0. reflexivity.
  - destruct i as [|i].
    + cbn in Ei. rewrite Z.mul_1_r in Ei. rewrite Hs, Ei, Z.eqb_refl.
      apply orb_true_iff. left. apply orb_true_r.
    + apply orb_true_iff. right. apply loop_accepts_spec.
      exists (S i). split; [lia|].
      rewrite Hs, squarings_pow by lia. rewrite Ei.
      unfold sub. symmetry. apply wrap_small. lia.
Qed.

Lemma prime_37 : Z.prime 37.
Proof. apply (trial_division_certificate 10); [lia|reflexivity]. Qed.

Lemma IsPrime_accepts_primes_witness : IsPrime 6 37 = Ret true.
Proof.
  apply (IsPrime_accepts_primes 37 6); [exact prime_37|lia| |].
  - unfold capacity, MaxBits. lia.
  - cbn. lia.
Defined.

Lemma find_power_short v k q :
  0 <= k < MaxBits -> Z.odd q = true -> v = 2 ^ k * q ->
  forall fuel j, 0 <= j <= k -> (fuel <= Z.to_nat (k - j))%nat ->
  find_power fuel v j = OutOfFuel.
Proof.
  intros Hk Hq Ev. induction fuel as [|fuel IH]; intros j Hj Hfuel; [reflexivity|].
  cbn [find_power]. rewrite shl_temp_pow2 by lia. cbn [bind].
  rewrite land_pow2 by lia.
  replace (Z.testbit v j) with false.
  - cbn [Z.eqb]. rewrite u32_small by (unfold MaxBits in Hk; lia).
    apply IH; lia.
  - rewrite Ev, Z.mul_comm. symmetry. apply Z.mul_pow2_bits_low. lia.
Qed.

Lemma squaring_chain_step v q j :
  1 < v -> 0 <= q ->
  2 ^ (q * 2 ^ Z.of_nat (S j)) mod v =
  ((2 ^ (q * 2 ^ Z.of_nat j) mod v) * (2 ^ (q * 2 ^ Z.of_nat j) mod v)) mod v.
Proof.
  intros Hv Hq. assert (0 < 2 ^ Z.of_nat j) by (apply Z.pow_pos_nonneg; lia).
  rewrite <- Z.mul_mod, <- Z.pow_add_r by nia.
  f_equal. f_equal. rewrite Nat2Z.inj_succ, Z.pow_succ_r by lia. ring.
Qed.

Lemma squaring_chain_stays_one v q (i d : nat) :
  1 < v -> 0 <= q ->
  2 ^ (q * 2 ^ Z.of_nat i) mod v = 1 ->
  2 ^ (q * 2 ^ Z.of_nat (i + d)) mod v = 1.
Proof.
  intros Hv Hq E. induction d as [|d IH].
  - rewrite Nat.add_0_r. exact E.
  - rewrite Nat.add_succ_r, squaring_chain_step, IH by assumption.
    apply Z.mod_small. lia.
Qed.

Lemma squaring_chain_after_minus_one v q (i : nat) :
  1 < v -> 0 <= q ->
  2 ^ (q * 2 ^ Z.of_nat i) mod v = v - 1 ->
  2 ^ (q * 2 ^ Z.of_nat (S i)) mod v = 1.
Proof.
  intros Hv Hq E. rewrite squaring_chain_step, E by assumption.
  symmetry. apply Z.mod_unique with (q := v - 2); [lia|ring].
Qed.

(** X8.  Whatever [IsPrime] accepts (among [value >= 3] with
    [value * value <= 2^4096]) is odd and a Fermat probable prime to base
    2: [2^(value - 1)] is 1 modulo [value]. *)
Theorem IsPrime_accepted_fermat fuel value :
  3 <= value -> value * value <= capacity ->
  IsPrime fuel value = Ret true ->
  Z.odd value = true /\ 2 ^ (value - 1) mod value = 1.
Proof.
  intros Hv Hfit E. pose proof capacity_pos as Hc.
  assert (Hrep : representable value) by (unfold representable; nia).
  assert (Hodd : Z.odd value = true).
  { destruct (Z.odd value) eqn:Ho; [reflexivity|exfalso].
    rewrite <- Z.negb_even in Ho. apply negb_false_iff in Ho.
    destruct fuel as [|fuel].
    - apply IsPrime_true_stages in E. destruct E as [_ E]. discriminate E.
    - rewrite IsPrime_even in E by assumption. discriminate E. }
  split; [exact Hodd|].
  apply IsPrime_true_stages in E. destruct E as [_ E].
  destruct (odd_part_exists (value - 1)) as [power [q [Hpow [Hq Eq]]]]; [lia|].
  assert (Hq0 : 0 < q) by (pose proof (Z.pow_pos_nonneg 2 power); nia).
  assert (Hp1 : 1 <= power).
  { destruct (Z.eq_dec power 0) as [->|]; [|lia]. exfalso.
    rewrite Z.pow_0_r in Eq. replace value with (q + 1) in Hodd by lia.
    rewrite Z.odd_add, Hq in Hodd. discriminate Hodd. }
  assert (Hpm : power < MaxBits) by (apply (pow2_below_capacity power q); nia).
  assert (Hfuel : (Z.to_nat power < fuel)%nat).
  { destruct (Nat.lt_ge_cases (Z.to_nat power) fuel) as [|Hshort]; [assumption|].
    exfalso. unfold witness_check in E.
    replace (sub value 1) with (value - 1) in E
      by (unfold sub; symmetry; apply wrap_small; nia).
    rewrite (find_power_short (value - 1) power q) in E
      by (try assumption; lia).
    discriminate E. }
  destruct (witness_check_exact fuel value power q) as [surplus [Es Ew]];
    try assumption; try nia.
  rewrite Ew in E. rewrite (quot_odd_value value power q) in Es by lia.
  rewrite BinPower_exact in Es by (try lia; nia).
  assert (Hs : surplus = 2 ^ q mod value) by congruence.
  assert (Hacc : (surplus =? 1) || (surplus =? value - 1) ||
                 loop_accepts (Z.to_nat (power - 1)) surplus value = true)
    by congruence.
  assert (Hchain : exists i : nat, (i <= Z.to_nat power)%nat /\
            2 ^ (q * 2 ^ Z.of_nat i) mod value = 1).
  { rewrite !orb_true_iff, !Z.eqb_eq, loop_accepts_spec in Hacc.
    destruct Hacc as [[H1|Hm]|[j [Hj Ej]]].
    - exists O. split; [lia|]. cbn. rewrite Z.mul_1_r. congruence.
    - exists 1%nat. split; [lia|].
      apply squaring_chain_after_minus_one; try lia.
      cbn. rewrite Z.mul_1_r. congruence.
    - exists (S j). split; [lia|].
      apply squaring_chain_after_minus_one; try lia.
      rewrite Hs, squarings_pow in Ej by lia. rewrite Ej.
      unfold sub. apply wrap_small. nia. }
  destruct Hchain as [i [Hi Ei]].
  replace (value - 1) with (q * 2 ^ Z.of_nat (i + (Z.to_nat power - i))).
  - apply squaring_chain_stays_one; [lia|lia|exact Ei].
  - replace (Z.of_nat (i + (Z.to_nat power - i))) with power by lia. lia.
Qed.

Lemma IsPrime_accepted_fermat_witness :
  Z.odd 4033 = true /\ 2 ^ (4033 - 1) mod 4033 = 1.
Proof.
  apply (IsPrime_accepted_fermat 10 4033); [lia| |vm_compute; reflexivity].
  unfold capacity, MaxBits. lia.
Defined.

(** ** GetRandBits: one draw per bit *)

Lemma GetRandBits_loop_exact bits :
  bits <= MaxBits ->
  forall fuel i value engine,
  0 <= i -> (Z.to_nat (bits - i) < fuel)%nat -> 0 <= value < 2 ^ i ->
  exists r,
    GetRandBits_loop fuel i bits value engine =
      Ret (r, {| draws := draws engine;
                 drawn := (drawn engine + Z.to_nat (bits - i))%nat |}) /\
    forall t, 0 <= t ->
      Z.testbit r t =
      if t <? i then Z.testbit value t
      else (t <? bits) &&
           (Z.land (draws engine (drawn engine + Z.to_nat (t - i))%nat) 1 =? 0).
Proof.
  intros Hbits. induction fuel as [|fuel IH];
    intros i value engine Hi Hfuel Hvalue; [lia|].
  cbn [GetRandBits_loop]. destruct (Z.ltb_spec i bits) as [Hlt|Hge].
  - cbn [uniform_dist].
    assert (Hgrow : 2 ^ i < 2 ^ (i + 1)) by (apply Z.pow_lt_mono_r; lia).
    assert (Hhigh : Z.testbit value i = false) by (apply testbit_above; lia).
    set (engine1 := {| draws := draws engine; drawn := S (drawn engine) |}).
    assert (Hengine : forall r : Z,
              Ret (r, {| draws := draws engine1;
                         drawn := (drawn engine1 + Z.to_nat (bits - (i + 1)))%nat |}) =
              Ret (r, {| draws := draws engine;
                         drawn := (drawn engine + Z.to_nat (bits - i))%nat |})).
    { intros r. unfold engine1. cbn [draws drawn]. do 3 f_equal. lia. }
    assert (Hdraw : forall t, i < t ->
              draws engine1 (drawn engine1 + Z.to_nat (t - (i + 1)))%nat =
              draws engine (drawn engine + Z.to_nat (t - i))%nat).
    { intros t Ht. unfold engine1. cbn [draws drawn]. f_equal. lia. }
    destruct (Z.land (draws engine (drawn engine)) 1 =? 0) eqn:Edraw.
    + change (shl 1 i) with (shl temp i). rewrite shl_temp_pow2 by lia.
      cbn [bind].
      destruct (IH (i + 1) (Z.lor value (2 ^ i)) engine1) as [r [Er Hr]];
        [lia|lia|apply lor_below; lia|].
      exists r. split; [rewrite Er; apply Hengine|].
      intros t Ht. rewrite (Hr t Ht).
      destruct (Z.ltb_spec t (i + 1)) as [Hti|Hti].
      * rewrite Z.lor_spec, Z.pow2_bits_eqb by lia.
        destruct (Z.ltb_spec t i) as [Hlow|Hhi].
        -- destruct (Z.eqb_spec i t); [lia|apply orb_false_r].
        -- replace t with i by lia. rewrite Z.eqb_refl, orb_true_r.
           replace (Z.to_nat (i - i)) with O by lia. rewrite Nat.add_0_r, Edraw.
           destruct (Z.ltb_spec i bits); [reflexivity|lia].
      * destruct (Z.ltb_spec t i); [lia|]. rewrite (Hdraw t) by lia. reflexivity.
    + destruct (IH (i + 1) value engine1) as [r [Er Hr]]; [lia|lia|lia|].
      exists r. split; [rewrite Er; apply Hengine|].
      intros t Ht. rewrite (Hr t Ht).
      destruct (Z.ltb_spec t (i + 1)) as [Hti|Hti].
      * destruct (Z.ltb_spec t i) as [Hlow|Hhi]; [reflexivity|].
        replace t with i by lia. rewrite Hhigh.
        replace (Z.to_nat (i - i)) with O by lia. rewrite Nat.add_0_r, Edraw.
        symmetry. apply andb_false_r.
      * destruct (Z.ltb_spec t i); [lia|]. rewrite (Hdraw t) by lia. reflexivity.
  - exists value. split.
    + do 2 f_equal. destruct engine as [ds n]. cbn [draws drawn]. f_equal. lia.
    + intros t Ht. destruct (Z.ltb_spec t i) as [Hlow|Hhi]; [reflexivity|].
      destruct (Z.ltb_spec t bits); [lia|]. cbn [andb].
      apply testbit_above; [lia|]. split; [lia|].
      apply Z.lt_le_trans with (2 ^ i); [lia|]. apply Z.pow_le_mono_r; lia.
Qed.

(** X9.  [GetRandBits bits] (for [bits] up to the width of the type) returns as
    soon as the fuel exceeds [bits], makes exactly [bits] draws, and sets
    bit [t] of its result exactly when [t < bits] and draw number [t] is
    even; for [bits <= 0] it draws nothing and returns 0. *)
Theorem GetRandBits_exact fuel bits engine :
  bits <= MaxBits -> (Z.to_nat bits < fuel)%nat ->
  exists r,
    GetRandBits fuel bits engine =
      Ret (r, {| draws := draws engine;
                 drawn := (drawn engine + Z.to_nat bits)%nat |}) /\
    forall t, 0 <= t ->
      Z.testbit r t =
      (t <? bits) && (Z.land (draws engine (drawn engine + Z.to_nat t)%nat) 1 =? 0).
Proof.
  intros Hbits Hfuel. unfold GetRandBits.
  destruct (GetRandBits_loop_exact bits Hbits fuel 0 0 engine) as [r [Er Hr]];
    [lia|rewrite Z.sub_0_r; exact Hfuel|rewrite Z.pow_0_r; lia|].
  rewrite Z.sub_0_r in Er. exists r. split; [exact Er|].
  intros t Ht. rewrite (Hr t Ht). destruct (Z.ltb_spec t 0); [lia|].
  rewrite Z.sub_0_r. reflexivity.
Qed.

Lemma GetRandBits_exact_witness :
  exists r,
    GetRandBits 7 6 {| draws := draws_53; drawn := 0 |} =
      Ret (r, {| draws := draws_53; drawn := (0 + Z.to_nat 6)%nat |}) /\
    forall t, 0 <= t ->
      Z.testbit r t =
      (t <? 6) && (Z.land (draws_53 (0 + Z.to_nat t)%nat) 1 =? 0).
Proof.
  apply (GetRandBits_exact 7 6 {| draws := draws_53; drawn := 0 |}).
  - unfold MaxBits. lia.
  - cbn. lia.
Defined.

(** ** FPrime and GenerateRSAKeys at small bit counts *)

Lemma GetRandBits_loop_no_throw bits :
  forall fuel i value engine e,
  0 <= i -> GetRandBits_loop fuel i bits value engine <> Throw e.
Proof.
  induction fuel as [|fuel IH]; intros i value engine e Hi; [discriminate|].
  cbn [GetRandBits_loop]. destruct (i <? bits); [|discriminate].
  cbn [uniform_dist]. destruct (Z.land (draws engine (drawn engine)) 1 =? 0).
  - rewrite shl_Ret by assumption. cbn [bind]. apply IH. lia.
  - apply IH. lia.
Qed.

Lemma small_odd_rejected v :
  Z.odd v = true -> 3 <= v <= 31 -> trial_division v primes = Ret (Some false).
Proof.
  intros Hodd Hv.
  assert (Hcases : v = 3 \/ v = 4 \/ v = 5 \/ v = 6 \/ v = 7 \/ v = 8 \/
                   v = 9 \/ v = 10 \/ v = 11 \/ v = 12 \/ v = 13 \/ v = 14 \/
                   v = 15 \/ v = 16 \/ v = 17 \/ v = 18 \/ v = 19 \/ v = 20 \/
                   v = 21 \/ v = 22 \/ v = 23 \/ v = 24 \/ v = 25 \/ v = 26 \/
                   v = 27 \/ v = 28 \/ v = 29 \/ v = 30 \/ v = 31) by lia.
  repeat (destruct Hcases as [->|Hcases];
          [first [reflexivity | discriminate Hodd]|]).
  subst. reflexivity.
Qed.

Lemma FPrime_loop_small bits e :
  2 <= bits <= 5 -> e <> 0 ->
  forall fuel engine,
  FPrime_loop fuel bits e (Z.lor (3 * 2 ^ (bits - 2)) 1) engine = OutOfFuel.
Proof.
  intros Hbits He. induction fuel as [|fuel IH]; intros engine; [reflexivity|].
  cbn [FPrime_loop].
  destruct (GetRandBits fuel bits engine) as [[rand engine1]|x|] eqn:Eg;
    cbn [bind]; [| |reflexivity].
  - apply GetRandBits_below in Eg; [|unfold MaxBits; lia].
    assert (Hrange : 2 <= bits <= MaxBits) by (unfold MaxBits; lia).
    pose proof (candidate_below bits rand Hrange Eg) as Hb.
    pose proof (candidate_odd bits rand Hrange) as Hodd.
    pose proof (candidate_log2 bits rand Hrange Eg) as Hlog.
    set (value := Z.lor rand (Z.lor (3 * 2 ^ (bits - 2)) 1)) in *.
    assert (Hv : 3 <= value <= 31).
    { assert (Hpos : 0 < value).
      { destruct (Z.eq_dec value 0) as [Hz|]; [|lia].
        rewrite Hz in Hodd. discriminate Hodd. }
      pose proof (Z.log2_spec value Hpos) as [Hlow _]. rewrite Hlog in Hlow.
      assert (2 <= 2 ^ (bits - 1)).
      { change 2 with (2 ^ 1) at 1. apply Z.pow_le_mono_r; lia. }
      assert (2 ^ bits <= 2 ^ 5) by (apply Z.pow_le_mono_r; lia).
      change (2 ^ 5) with 32 in *.
      rewrite Z.odd_spec in Hodd. destruct Hodd as [h Hh]. lia. }
    rewrite rem_Ret by assumption. cbn [bind].
    rewrite (IsPrime_filtered fuel value) by (apply small_odd_rejected; assumption).
    cbn [bind]. destruct (negb (Z.rem value e =? 1)); apply IH.
  - exfalso. unfold GetRandBits in Eg.
    apply (GetRandBits_loop_no_throw bits fuel 0 0 engine x); [lia|exact Eg].
Qed.

(** X10.  [FPrime] throws for a bit count below 2 (and at least
    [-2^31 + 2], so that [bits - 2] is an [int32_t]): the mask shifts by
    the negative count [bits - 2] before the first draw; and so does
    [GenerateRSAKeys], whatever [p] and [q]. *)
Theorem FPrime_throws_below_2 fuel rnd rd p q bits :
  - 2 ^ 31 + 2 <= bits < 2 ->
  FPrime fuel rnd bits = Throw out_of_range /\
  GenerateRSAKeys (S fuel) rd p q bits = Throw out_of_range.
Proof.
  intros [_ Hbits].
  assert (E : forall f r b, b < 2 -> FPrime f r b = Throw out_of_range).
  { intros f r b Hb. unfold FPrime.
    destruct FPrime_constants as [-> _]. cbn [bind].
    unfold shl. destruct (Z.ltb_spec (b - 2) 0); [reflexivity|lia]. }
  split; [apply E, Hbits|].
  unfold GenerateRSAKeys. cbn [GenerateRSAKeys_loop]. unfold GeneratePrime.
  rewrite E by lia. reflexivity.
Qed.

Lemma FPrime_throws_below_2_witness :
  FPrime 10 draws_53 1 = Throw out_of_range /\
  GenerateRSAKeys 11 (fun _ => draws_53) 37 59 1 = Throw out_of_range.
Proof. apply (FPrime_throws_below_2 10 draws_53 (fun _ => draws_53) 37 59 1). lia. Defined.

(** X11.  For bit counts 2 to 5, [FPrime] never returns, whatever the draws: every
    candidate is an odd number between 3 and 31 and fails a trial division.
    So [GenerateRSAKeys] never returns for [bitsCount] from 2 to 5. *)
Theorem FPrime_diverges_up_to_5 fuel rnd rd p q bits :
  2 <= bits <= 5 ->
  FPrime fuel rnd bits = OutOfFuel /\
  GenerateRSAKeys fuel rd p q bits = OutOfFuel.
Proof.
  intros Hbits.
  assert (E : forall f r, FPrime f r bits = OutOfFuel).
  { intros f r. unfold FPrime.
    destruct FPrime_constants as [Ep Ee]. rewrite Ep. cbn [bind]. rewrite Ee.
    rewrite FPrime_mask by (unfold MaxBits; lia). cbn [bind].
    apply FPrime_loop_small; [exact Hbits|discriminate]. }
  split; [apply E|].
  unfold GenerateRSAKeys. destruct fuel as [|fuel]; [reflexivity|].
  cbn [GenerateRSAKeys_loop]. unfold GeneratePrime.
  rewrite Z.min_l by lia. rewrite E. reflexivity.
Qed.

Lemma FPrime_diverges_up_to_5_witness :
  FPrime 50 draws_53 5 = OutOfFuel /\
  GenerateRSAKeys 50 (fun _ => draws_53) 29 31 5 = OutOfFuel.
Proof. apply (FPrime_diverges_up_to_5 50 draws_53 (fun _ => draws_53) 29 31 5). lia. Defined.

(** ** The size of the modulus *)

Lemma two_top_bits_lower_bound v bits :
  2 <= bits -> 0 <= v < 2 ^ bits ->
  Z.testbit v (bits - 1) = true -> Z.testbit v (bits - 2) = true ->
  3 * 2 ^ (bits - 2) <= v.
Proof.
  intros Hbits Hv Htop Hsecond.
  assert (Hp : 0 < 2 ^ (bits - 2)) by (apply Z.pow_pos_nonneg; lia).
  assert (E1 : 2 ^ (bits - 1) = 2 * 2 ^ (bits - 2)).
  { replace (bits - 1) with (Z.succ (bits - 2)) by lia. apply Z.pow_succ_r. lia. }
  assert (E2 : 2 ^ bits = 2 * 2 ^ (bits - 1)).
  { replace bits with (Z.succ (bits - 1)) at 1 by lia. apply Z.pow_succ_r. lia. }
  assert (Hhigh : 2 ^ (bits - 1) <= v).
  { destruct (Z.le_gt_cases (2 ^ (bits - 1)) v) as [|Hgt]; [assumption|].
    rewrite testbit_above in Htop by lia. discriminate Htop. }
  assert (Hmod : v mod 2 ^ (bits - 1) = v - 2 ^ (bits - 1)).
  { symmetry. apply Z.mod_unique with (q := 1); lia. }
  destruct (Z.le_gt_cases (2 ^ (bits - 2)) (v - 2 ^ (bits - 1))) as [|Hgt]; [lia|].
  exfalso.
  assert (Hbit : Z.testbit (v mod 2 ^ (bits - 1)) (bits - 2) = true).
  { rewrite Z.mod_pow2_bits_low by lia. exact Hsecond. }
  rewrite Hmod, testbit_above in Hbit by lia. discriminate Hbit.
Qed.

(** X12.  The product of two values returned by [FPrime bits], for
    [bits <= 2048], has exactly [2 * bits] significant bits and is computed
    without truncation. *)
Theorem FPrime_modulus_size fuel1 rnd1 fuel2 rnd2 bits p q :
  bits <= 2048 ->
  FPrime fuel1 rnd1 bits = Ret p -> FPrime fuel2 rnd2 bits = Ret q ->
  Z.log2 (p * q) = 2 * bits - 1 /\ mul p q = p * q.
Proof.
  intros Hbits Ep Eq.
  assert (Hshape : forall f r v, FPrime f r bits = Ret v ->
            2 <= bits /\ 3 * 2 ^ (bits - 2) <= v < 2 ^ bits).
  { intros f r v E.
    destruct (FPrime_returned f r bits v ltac:(unfold MaxBits; lia) E)
      as [Hge [rand [f' [Hrand [Ev _]]]]].
    assert (Hrange : 2 <= bits <= MaxBits) by (unfold MaxBits; lia).
    pose proof (candidate_below bits rand Hrange Hrand) as Hb.
    pose proof (candidate_top_bit bits rand Hrange) as Ht.
    pose proof (candidate_second_bit bits rand Hrange) as Hs.
    rewrite <- Ev in Hb, Ht, Hs. split; [exact Hge|]. split; [|lia].
    apply two_top_bits_lower_bound; assumption. }
  destruct (Hshape _ _ _ Ep) as [Hge Hp]. destruct (Hshape _ _ _ Eq) as [_ Hq].
  assert (Hx : 0 < 2 ^ (bits - 2)) by (apply Z.pow_pos_nonneg; lia).
  assert (E4 : 2 ^ bits = 4 * 2 ^ (bits - 2)).
  { replace bits with (2 + (bits - 2)) at 1 by lia. rewrite Z.pow_add_r by lia.
    reflexivity. }
  assert (Esq : 2 ^ (2 * bits) = 2 ^ bits * 2 ^ bits).
  { replace (2 * bits) with (bits + bits) by lia. apply Z.pow_add_r; lia. }
  assert (Ehalf : 2 ^ (2 * bits) = 2 * 2 ^ (2 * bits - 1)).
  { replace (2 * bits) with (Z.succ (2 * bits - 1)) at 1 by lia.
    apply Z.pow_succ_r. lia. }
  assert (Hcap : 2 ^ (2 * bits) <= capacity).
  { unfold capacity, MaxBits. apply Z.pow_le_mono_r; lia. }
  split.
  - apply Z.log2_unique; [lia|].
    replace (Z.succ (2 * bits - 1)) with (2 * bits) by lia. nia.
  - apply mul_exact; nia.
Qed.

Lemma FPrime_modulus_size_witness :
  Z.log2 (53 * 53) = 2 * 6 - 1 /\ mul 53 53 = 53 * 53.
Proof.
  apply (FPrime_modulus_size 10 draws_53 10 draws_53 6 53 53);
    first [lia | vm_compute; reflexivity].
Defined.

(** ** GenerateRSAKeys: the warning and the generated keys *)

Lemma GenerateRSAKeys_returned fuel rd p q bitsCount keys cerr :
  Z.odd p = true -> Z.odd q = true ->
  2 ^ (bitsCount - 1) <= p < 2 ^ bitsCount ->
  2 ^ (bitsCount - 1) <= q < 2 ^ bitsCount ->
  (p * q) * (p * q) <= capacity ->
  GenerateRSAKeys fuel rd p q bitsCount = Ret (keys, cerr) ->
  exists e d,
    keys = TRSAKeys_ctor e d (p * q) /\
    0 < e < (p - 1) * (q - 1) /\ 0 < d < (p - 1) * (q - 1) /\
    (e * d) mod ((p - 1) * (q - 1)) = Z.gcd e ((p - 1) * (q - 1)) /\
    cerr = if (e * d) mod ((p - 1) * (q - 1)) =? 1 then []
           else [warning_incorrect_exps].
Proof.
  intros Hp Hq Hpl Hql Hfit E. pose proof capacity_pos as Hc.
  assert (Hp1 : 1 <= p).
  { rewrite Z.odd_spec in Hp. destruct Hp as [k Hk].
    pose proof (Z.pow_nonneg 2 (bitsCount - 1)). lia. }
  assert (Hq1 : 1 <= q).
  { rewrite Z.odd_spec in Hq. destruct Hq as [k Hk].
    pose proof (Z.pow_nonneg 2 (bitsCount - 1)). lia. }
  assert (Hpq : p * q < capacity).
  { pose proof capacity_double as Hcd.
    assert (0 < 2 ^ 4095) by (apply Z.pow_pos_nonneg; lia).
    assert (Hpq1 : 1 <= p * q) by nia.
    destruct (Z.eq_dec (p * q) 1) as [->|]; [lia|nia]. }
  unfold GenerateRSAKeys in E.
  assert (Hn : mul p q = p * q) by (apply mul_exact; lia).
  assert (Hphi : mul (sub p 1) (sub q 1) = (p - 1) * (q - 1)).
  { unfold sub. rewrite !wrap_small by nia. apply mul_exact; nia. }
  rewrite Hn, Hphi in E.
  destruct (GenerateRSAKeys_loop fuel rd 0 ((p - 1) * (q - 1)) bitsCount)
    as [[e d]| |] eqn:El; cbn [bind fst snd] in E; try discriminate E.
  apply GenerateRSAKeys_loop_returned in El.
  destruct El as [fuel' [k' [y [Eg [Ee Hd]]]]].
  assert (Hbits : 2 <= bitsCount).
  { unfold GeneratePrime in Eg. apply FPrime_returned in Eg; [|unfold MaxBits]; lia. }
  assert (Hbig : 2 ^ bitsCount <= (p - 1) * (q - 1)).
  { pose proof (odd_bit_length p bitsCount Hbits Hp (proj1 Hpl)).
    pose proof (odd_bit_length q bitsCount Hbits Hq (proj1 Hql)).
    assert (0 < 2 ^ (bitsCount - 2)) by (apply Z.pow_pos_nonneg; lia).
    replace bitsCount with (2 + (bitsCount - 2)) at 1 by lia.
    rewrite Z.pow_add_r by lia. nia. }
  destruct (returned_exponents fuel' (rd k') bitsCount ((p - 1) * (q - 1)) e d y fuel'
              Eg Ee Hd) as [He [Hd' Hcong]]; [nia|].
  assert (Hcheck : rem (mul e d) ((p - 1) * (q - 1)) =
                   Ret ((e * d) mod ((p - 1) * (q - 1)))).
  { rewrite mul_exact by nia. apply rem_mod_Ret; nia. }
  rewrite Hcheck in E. cbn [bind] in E.
  exists e, d. split; [congruence|]. split; [exact He|]. split; [exact Hd'|].
  split; [exact Hcong|].
  destruct ((e * d) mod ((p - 1) * (q - 1)) =? 1); cbn [negb] in E; congruence.
Qed.

(** X13.  The warning of [GenerateRSAKeys] is exact when the modulus has at most
    2048 bits: for odd [p], [q] of [bitsCount] bits with
    [(p * q)^2 <= 2^4096], a returned pair comes with no warning exactly
    when [gcd e phi = 1], that is exactly when [e * d] is 1 modulo [phi];
    otherwise the one warning is written. *)
Theorem GenerateRSAKeys_warning_exact fuel rd p q bitsCount keys cerr :
  Z.odd p = true -> Z.odd q = true ->
  2 ^ (bitsCount - 1) <= p < 2 ^ bitsCount ->
  2 ^ (bitsCount - 1) <= q < 2 ^ bitsCount ->
  (p * q) * (p * q) <= capacity ->
  GenerateRSAKeys fuel rd p q bitsCount = Ret (keys, cerr) ->
  let phi := (p - 1) * (q - 1) in
  let e := fst (PublicKey keys) in
  let d := fst (PrivateKey keys) in
  (cerr = [] <-> Z.gcd e phi = 1) /\
  (cerr = [] <-> (e * d) mod phi = 1) /\
  (cerr <> [] -> cerr = [warning_incorrect_exps]).
Proof.
  intros Hp Hq Hpl Hql Hfit E. cbv zeta.
  destruct (GenerateRSAKeys_returned fuel rd p q bitsCount keys cerr
              Hp Hq Hpl Hql Hfit E) as [e [d [-> [He [Hd [Hcong ->]]]]]].
  cbn [TRSAKeys_ctor PublicKey PrivateKey fst]. rewrite <- Hcong.
  destruct (Z.eqb_spec ((e * d) mod ((p - 1) * (q - 1))) 1) as [E1|E1].
  - split; [tauto|]. split; [tauto|]. intros H. contradiction.
  - split; [|split; [|reflexivity]]; split; intros H;
      first [discriminate H | contradiction].
Qed.

Lemma GenerateRSAKeys_warning_exact_witness :
  let keys := TRSAKeys_ctor 4033 1 (2221 * 2399) in
  let cerr := [warning_incorrect_exps] in
  let phi := (2221 - 1) * (2399 - 1) in
  let e := fst (PublicKey keys) in
  let d := fst (PrivateKey keys) in
  (cerr = [] <-> Z.gcd e phi = 1) /\
  (cerr = [] <-> (e * d) mod phi = 1) /\
  (cerr <> [] -> cerr = [warning_incorrect_exps]).
Proof.
  apply (GenerateRSAKeys_warning_exact 40 (fun _ => draws_4033) 2221 2399 12
           (TRSAKeys_ctor 4033 1 (2221 * 2399)) [warning_incorrect_exps]);
    first [reflexivity | lia | unfold capacity, MaxBits; lia
          | vm_compute; reflexivity].
Defined.

Lemma round_trip_residue p q e d m :
  Z.prime p -> Z.prime q -> p <> q ->
  0 < e -> 0 < d -> (e * d) mod ((p - 1) * (q - 1)) = 1 ->
  (p * q) * (p * q) <= capacity ->
  0 <= m -> m * (p * q) <= capacity ->
  (c <- snd (Encode m (e, p * q)) ;; Decode c (d, p * q)) = Ret (m mod (p * q)).
Proof.
  intros Hp Hq Hne He Hd Hed Hfit Hm Hmn.
  pose proof (Z.prime_ge_2 p Hp) as Hp2. pose proof (Z.prime_ge_2 q Hq) as Hq2.
  assert (Hn : 1 < p * q) by nia.
  unfold Encode, Decode. cbn [fst snd].
  rewrite BinPower_exact by (try lia; nia). cbn [bind].
  pose proof (Z.mod_pos_bound (m ^ e) (p * q) ltac:(lia)) as Hc.
  rewrite BinPower_exact by (try lia; nia).
  f_equal. rewrite Z.mod_pow_l, <- Z.pow_mul_r by lia.
  apply rsa_congruence; try assumption. nia.
Qed.

(** X14.  Key generation composes with the cipher: for distinct odd primes [p]
    and [q] of [bitsCount] bits with [(p * q)^2 <= 2^4096], keys that
    [GenerateRSAKeys] returns without a warning decode every encoded block
    [0 <= m < p * q] back to [m]. *)
Theorem GenerateRSAKeys_round_trip fuel rd p q bitsCount keys m :
  Z.prime p -> Z.prime q -> p <> q ->
  Z.odd p = true -> Z.odd q = true ->
  2 ^ (bitsCount - 1) <= p < 2 ^ bitsCount ->
  2 ^ (bitsCount - 1) <= q < 2 ^ bitsCount ->
  (p * q) * (p * q) <= capacity ->
  GenerateRSAKeys fuel rd p q bitsCount = Ret (keys, []) ->
  0 <= m < p * q ->
  (c <- snd (Encode m (PublicKey keys)) ;; Decode c (PrivateKey keys)) = Ret m.
Proof.
  intros Pp Pq Hne Hp Hq Hpl Hql Hfit E Hm.
  destruct (GenerateRSAKeys_returned fuel rd p q bitsCount keys []
              Hp Hq Hpl Hql Hfit E) as [e [d [-> [He [Hd [Hcong Hcerr]]]]]].
  cbn [TRSAKeys_ctor PublicKey PrivateKey].
  destruct (Z.eqb_spec ((e * d) mod ((p - 1) * (q - 1))) 1) as [E1|_];
    [|discriminate Hcerr].
  rewrite round_trip_residue; try assumption; try lia; try nia.
  f_equal. apply Z.mod_small. exact Hm.
Qed.

Lemma prime_59 : Z.prime 59.
Proof. apply (trial_division_certificate 10); [lia|reflexivity]. Qed.

Lemma GenerateRSAKeys_round_trip_witness :
  (c <- snd (Encode 1000 (PublicKey (TRSAKeys_ctor 53 197 (37 * 59)))) ;;
   Decode c (PrivateKey (TRSAKeys_ctor 53 197 (37 * 59)))) = Ret 1000.
Proof.
  apply (GenerateRSAKeys_round_trip 20 (fun _ => draws_53) 37 59 6
           (TRSAKeys_ctor 53 197 (37 * 59)) 1000);
    first [exact prime_37 | exact prime_59 | discriminate | reflexivity | lia
          | unfold capacity, MaxBits; lia].
Defined.

(** ** TransformToBits *)

Lemma shl_1_beyond i : MaxBits <= i -> shl 1 i = Ret 0.
Proof.
  intros Hi. unfold MaxBits in Hi. rewrite shl_Ret by lia. f_equal.
  rewrite Z.shiftl_1_l. rewrite wrap_nonneg_mod by (apply Z.pow_nonneg; lia).
  unfold capacity. replace i with ((i - MaxBits) + MaxBits) by lia.
  rewrite Z.pow_add_r by (unfold MaxBits; lia). apply Z.mod_mul.
  apply Z.pow_nonzero; unfold MaxBits; lia.
Qed.

Lemma bit_written value i :
  0 <= i ->
  exists bit, shl 1 i = Ret bit /\
    (if negb (Z.land value bit =? 0) then "1"%char else "0"%char) = bit_char value i.
Proof.
  intros Hi. unfold bit_char. destruct (Z.ltb_spec i MaxBits) as [Hlt|Hge].
  - exists (2 ^ i). split; [apply (shl_temp_pow2 i); lia|].
    rewrite land_pow2 by assumption. cbn [andb].
    destruct (Z.testbit value i); [|reflexivity].
    pose proof (Z.pow_pos_nonneg 2 i ltac:(lia) Hi).
    destruct (Z.eqb_spec (2 ^ i) 0); [lia|reflexivity].
  - exists 0. split; [apply shl_1_beyond; assumption|].
    rewrite Z.land_0_r. reflexivity.
Qed.

Lemma TransformToBits_loop_exact value :
  forall fuel i bits, -1 <= i -> (Z.to_nat (i + 1) < fuel)%nat ->
  TransformToBits_loop fuel value i bits =
  Ret (bits ++ bit_chars value (Z.to_nat (i + 1))).
Proof.
  induction fuel as [|fuel IH]; intros i bits Hi Hfuel; [lia|].
  cbn [TransformToBits_loop]. destruct (Z.geb_spec i 0) as [Hge|Hlt].
  - destruct (bit_written value i Hge) as [bit [Eb Ec]].
    rewrite Eb. cbn [bind]. cbv zeta. rewrite Ec.
    rewrite IH by lia.
    replace (Z.to_nat (i + 1)) with (S (Z.to_nat (i - 1 + 1))) by lia.
    cbn [bit_chars]. rewrite <- app_assoc. cbn [app].
    replace (Z.of_nat (Z.to_nat (i - 1 + 1))) with i by lia. reflexivity.
  - replace (Z.to_nat (i + 1)) with O by lia. cbn [bit_chars].
    rewrite app_nil_r. reflexivity.
Qed.

Lemma bit_chars_length value n : List.length (bit_chars value n) = n.
Proof. induction n as [|n IH]; cbn [bit_chars List.length]; congruence. Qed.

Lemma bit_chars_nth value n k :
  (k < n)%nat ->
  nth k (bit_chars value n) Ascii.zero = bit_char value (Z.of_nat (n - 1 - k)).
Proof.
  revert k. induction n as [|n IH]; intros k Hk; [lia|].
  cbn [bit_chars]. destruct k as [|k].
  - cbn [nth]. f_equal. lia.
  - cbn [nth]. rewrite IH by lia. f_equal. lia.
Qed.

(** X15.  For a count [bitsCount] of [int] range above [-2^31] (so that
    [bitsCount - 1] is an [int]), [TransformToBits] returns as soon as the
    fuel exceeds [bitsCount]; its
    string has exactly [bitsCount] characters (none for a negative count),
    most significant first: character [k] is ['1'] when bit
    [bitsCount - 1 - k] of the value is set and lies within the 4096 bits
    of the type, and ['0'] otherwise. *)
Theorem TransformToBits_exact fuel value bitsCount :
  - 2 ^ 31 < bitsCount < 2 ^ 31 ->
  (Z.to_nat bitsCount < fuel)%nat ->
  exists bits,
    TransformToBits fuel value bitsCount = Ret bits /\
    List.length bits = Z.to_nat bitsCount /\
    forall k, (k < Z.to_nat bitsCount)%nat ->
      nth k bits Ascii.zero =
      if (bitsCount - 1 - Z.of_nat k <? MaxBits) &&
         Z.testbit value (bitsCount - 1 - Z.of_nat k)
      then "1"%char else "0"%char.
Proof.
  intros _ Hfuel. exists (bit_chars value (Z.to_nat bitsCount)).
  split; [|split].
  - unfold TransformToBits.
    destruct (Z.le_gt_cases 0 bitsCount) as [Hge|Hlt].
    + rewrite TransformToBits_loop_exact by lia. cbn [app].
      do 2 f_equal. lia.
    + destruct fuel as [|fuel]; [lia|]. cbn [TransformToBits_loop].
      destruct (Z.geb_spec (bitsCount - 1) 0); [lia|].
      replace (Z.to_nat bitsCount) with O by lia. reflexivity.
  - apply bit_chars_length.
  - intros k Hk. rewrite bit_chars_nth by exact Hk. unfold bit_char.
    replace (Z.of_nat (Z.to_nat bitsCount - 1 - k)) with (bitsCount - 1 - Z.of_nat k)
      by lia.
    reflexivity.
Qed.

Lemma TransformToBits_exact_witness :
  exists bits,
    TransformToBits 7 11 6 = Ret bits /\
    List.length bits = Z.to_nat 6 /\
    forall k, (k < Z.to_nat 6)%nat ->
      nth k bits Ascii.zero =
      if (6 - 1 - Z.of_nat k <? MaxBits) && Z.testbit 11 (6 - 1 - Z.of_nat k)
      then "1"%char else "0"%char.
Proof. apply (TransformToBits_exact 7 11 6); [lia|cbn; lia]. Defined.

(** ** TransformFromBits *)

Lemma last_index len : 0 <= len < 2 ^ 31 -> int32 (u64 (len - 1)) = len - 1.
Proof.
  intros Hlen. unfold int32, u64.
  destruct (Z.eq_dec len 0) as [->|Hnz].
  - reflexivity.
  - rewrite (Z.mod_small (len - 1)) by lia.
    rewrite Z.mod_small by lia. lia.
Qed.

Lemma add_bit value i :
  0 <= i < MaxBits -> 0 <= value < 2 ^ i ->
  add value (2 ^ i) = Z.lor value (2 ^ i).
Proof.
  intros Hi Hv.
  assert (Hland : Z.land value (2 ^ i) = 0).
  { rewrite land_pow2 by lia. rewrite testbit_above by lia. reflexivity. }
  pose proof (Z.add_lor_land value (2 ^ i)) as Hsum. rewrite Hland in Hsum.
  assert (Hcap : 2 ^ (i + 1) <= capacity).
  { unfold capacity. apply Z.pow_le_mono_r; lia. }
  rewrite Z.pow_add_r, Z.pow_1_r in Hcap by lia.
  unfold add. rewrite wrap_small by lia. lia.
Qed.

Section FromBits.

Variable bits : list ascii.
Variable bitsCount : Z.

Let len := Z.of_nat (List.length bits).
Let count := Z.min len bitsCount.
Let digit (t : Z) : bool := reads_as_one (nth (Z.to_nat (len - 1 - t)) bits Ascii.zero).

Hypothesis bitsCount_fits : bitsCount <= MaxBits.

Lemma TransformFromBits_loop_exact :
  forall fuel i value,
  0 <= i -> (Z.to_nat (count - i) < fuel)%nat -> 0 <= value < 2 ^ i ->
  exists r,
    TransformFromBits_loop fuel bits bitsCount i (len - 1 - i) value = Ret r /\
    forall t, 0 <= t ->
      Z.testbit r t = if t <? i then Z.testbit value t else (t <? count) && digit t.
Proof.
  induction fuel as [|fuel IH]; intros i value Hi Hfuel Hvalue; [lia|].
  cbn [TransformFromBits_loop].
  assert (Hcond : (len - 1 - i >=? 0) && (i <? bitsCount) = (i <? count)).
  { unfold count. destruct (Z.geb_spec (len - 1 - i) 0), (Z.ltb_spec i bitsCount),
      (Z.ltb_spec i (Z.min len bitsCount)); cbn [andb]; lia. }
  rewrite Hcond. destruct (Z.ltb_spec i count) as [Hlt|Hge].
  - assert (Hgrow : 2 ^ i < 2 ^ (i + 1)) by (apply Z.pow_lt_mono_r; lia).
    assert (Hhigh : Z.testbit value i = false) by (apply testbit_above; lia).
    assert (Him : i < MaxBits) by (unfold count in Hlt; lia).
    replace (len - 1 - i - 1) with (len - 1 - (i + 1)) by lia.
    destruct (Ascii.eqb (nth (Z.to_nat (len - 1 - i)) bits Ascii.zero) "0") eqn:Ec.
    + destruct (IH (i + 1) value) as [r [Er Hr]]; [lia|lia|lia|].
      exists r. split; [exact Er|]. intros t Ht. rewrite (Hr t Ht).
      destruct (Z.ltb_spec t (i + 1)) as [Hti|Hti].
      * destruct (Z.ltb_spec t i) as [Hlow|Hhi]; [reflexivity|].
        replace t with i by lia. rewrite Hhigh. unfold digit, reads_as_one.
        rewrite Ec. symmetry. apply andb_false_r.
      * destruct (Z.ltb_spec t i); [lia|reflexivity].
    + change (shl 1 i) with (shl temp i). rewrite shl_temp_pow2 by lia.
      cbn [bind]. rewrite add_bit by lia.
      destruct (IH (i + 1) (Z.lor value (2 ^ i))) as [r [Er Hr]];
        [lia|lia|apply lor_below; lia|].
      exists r. split; [exact Er|]. intros t Ht. rewrite (Hr t Ht).
      destruct (Z.ltb_spec t (i + 1)) as [Hti|Hti].
      * rewrite Z.lor_spec, Z.pow2_bits_eqb by lia.
        destruct (Z.ltb_spec t i) as [Hlow|Hhi].
        -- destruct (Z.eqb_spec i t); [lia|apply orb_false_r].
        -- replace t with i by lia. rewrite Z.eqb_refl, orb_true_r.
           unfold digit, reads_as_one. rewrite Ec.
           destruct (Z.ltb_spec i count); [reflexivity|lia].
      * destruct (Z.ltb_spec t i); [lia|reflexivity].
  - exists value. split; [reflexivity|].
    intros t Ht. destruct (Z.ltb_spec t i) as [Hlow|Hhi]; [reflexivity|].
    destruct (Z.ltb_spec t count); [lia|]. cbn [andb].
    apply testbit_above; [lia|]. split; [lia|].
    apply Z.lt_le_trans with (2 ^ i); [lia|]. apply Z.pow_le_mono_r; lia.
Qed.

Lemma TransformFromBits_value fuel :
  len < 2 ^ 31 -> (Z.to_nat count < fuel)%nat ->
  exists r,
    snd (TransformFromBits fuel bits bitsCount) = Ret r /\
    forall t, 0 <= t -> Z.testbit r t = (t <? count) && digit t.
Proof.
  intros Hlen Hfuel. unfold TransformFromBits. cbn [snd]. fold len.
  rewrite last_index by (unfold len; lia).
  destruct (TransformFromBits_loop_exact fuel 0 0) as [r [Er Hr]];
    [lia|rewrite Z.sub_0_r; exact Hfuel|rewrite Z.pow_0_r; lia|].
  rewrite Z.sub_0_r in Er. exists r. split; [exact Er|].
  intros t Ht. rewrite (Hr t Ht). destruct (Z.ltb_spec t 0); [lia|reflexivity].
Qed.

End FromBits.

Lemma size_check bitsCount len :
  - 2 ^ 31 <= bitsCount < 2 ^ 31 -> 0 <= len < 2 ^ 31 ->
  (u64 bitsCount =? len) = (bitsCount =? len).
Proof.
  intros Hb Hl. unfold u64.
  destruct (Z.le_gt_cases 0 bitsCount) as [Hge|Hlt].
  - rewrite Z.mod_small by lia. reflexivity.
  - replace (bitsCount mod 2 ^ 64) with (bitsCount + 2 ^ 64)
      by (apply Z.mod_unique with (q := -1); lia).
    destruct (Z.eqb_spec (bitsCount + 2 ^ 64) len), (Z.eqb_spec bitsCount len);
      try reflexivity; lia.
Qed.

(** X16.  [TransformFromBits] is fail-open on a size mismatch: for a string
    shorter than [2^31] and a count of at most 4096, it returns a value
    whose bit [t] is set exactly when [t] is below both the length and the
    count and the character [t] places from the right end is not ['0']
    (any other character reads as a one); the warning is written exactly
    when the count differs from the length. *)
Theorem TransformFromBits_exact fuel bits bitsCount :
  let len := Z.of_nat (List.length bits) in
  - 2 ^ 31 <= bitsCount <= MaxBits -> len < 2 ^ 31 ->
  (Z.to_nat (Z.min len bitsCount) < fuel)%nat ->
  exists r,
    snd (TransformFromBits fuel bits bitsCount) = Ret r /\
    (forall t, 0 <= t ->
       Z.testbit r t =
       (t <? Z.min len bitsCount) &&
       reads_as_one (nth (Z.to_nat (len - 1 - t)) bits Ascii.zero)) /\
    (fst (TransformFromBits fuel bits bitsCount) = [] <-> bitsCount = len) /\
    (bitsCount <> len ->
     fst (TransformFromBits fuel bits bitsCount) = [warning_incorrect_sizes]).
Proof.
  intros len Hb Hlen Hfuel.
  destruct (TransformFromBits_value bits bitsCount (proj2 Hb) fuel Hlen Hfuel)
    as [r [Er Hr]].
  exists r. split; [exact Er|]. split; [exact Hr|].
  unfold TransformFromBits. cbn [fst]. fold len.
  rewrite size_check by (unfold MaxBits in Hb; unfold len; lia).
  destruct (Z.eqb_spec bitsCount len) as [E|E]; cbn [negb].
  - split; [tauto|contradiction].
  - split; [|reflexivity]. split; [discriminate|contradiction].
Qed.

Lemma TransformFromBits_exact_witness :
  let bits := list_ascii_of_string "11x01011" in
  let len := Z.of_nat (List.length bits) in
  exists r,
    snd (TransformFromBits 10 bits 6) = Ret r /\
    (forall t, 0 <= t ->
       Z.testbit r t =
       (t <? Z.min len 6) &&
       reads_as_one (nth (Z.to_nat (len - 1 - t)) bits Ascii.zero)) /\
    (fst (TransformFromBits 10 bits 6) = [] <-> 6 = len) /\
    (6 <> len -> fst (TransformFromBits 10 bits 6) = [warning_incorrect_sizes]).
Proof.
  apply (TransformFromBits_exact 10 (list_ascii_of_string "11x01011") 6).
  - unfold MaxBits. lia.
  - cbn. lia.
  - cbn. lia.
Defined.

Lemma TransformToBits_run fuel value bitsCount :
  0 <= bitsCount -> (Z.to_nat bitsCount < fuel)%nat ->
  TransformToBits fuel value bitsCount = Ret (bit_chars value (Z.to_nat bitsCount)).
Proof.
  intros Hb Hfuel. unfold TransformToBits.
  rewrite TransformToBits_loop_exact by lia. cbn [app]. do 2 f_equal. lia.
Qed.

Lemma reads_bit_char value t :
  0 <= t < MaxBits -> reads_as_one (bit_char value t) = Z.testbit value t.
Proof.
  intros Ht. unfold bit_char. destruct (Z.ltb_spec t MaxBits); [|lia].
  cbn [andb]. destruct (Z.testbit value t); reflexivity.
Qed.

(** X17.  Round trip through the bit string: for [0 <= bitsCount <= 4096],
    reading back with [TransformFromBits] what [TransformToBits] wrote for
    a non-negative value gives the value modulo [2^bitsCount], with no
    warning. *)
Theorem TransformFromBits_TransformToBits fuel value bitsCount :
  0 <= value -> 0 <= bitsCount <= MaxBits ->
  (Z.to_nat bitsCount < fuel)%nat ->
  exists bits,
    TransformToBits fuel value bitsCount = Ret bits /\
    TransformFromBits fuel bits bitsCount = ([], Ret (value mod 2 ^ bitsCount)).
Proof.
  intros Hv Hb Hfuel. set (n := Z.to_nat bitsCount).
  exists (bit_chars value n). split; [apply TransformToBits_run; lia|].
  assert (Hlen : Z.of_nat (List.length (bit_chars value n)) = bitsCount).
  { rewrite bit_chars_length. unfold n. lia. }
  destruct (TransformFromBits_value (bit_chars value n) bitsCount (proj2 Hb) fuel)
    as [r [Er Hr]].
  - rewrite Hlen. unfold MaxBits in Hb. lia.
  - rewrite Hlen, Z.min_id. exact Hfuel.
  - rewrite (surjective_pairing (TransformFromBits fuel (bit_chars value n) bitsCount)).
    f_equal.
    + unfold TransformFromBits. cbn [fst]. rewrite Hlen.
      rewrite size_check by (unfold MaxBits in Hb; lia).
      rewrite Z.eqb_refl. reflexivity.
    + rewrite Er. f_equal. apply Z.bits_inj'. intros t Ht.
      rewrite (Hr t Ht), Hlen, Z.min_id, Z.testbit_mod_pow2 by lia.
      destruct (Z.ltb_spec t bitsCount) as [Hlt|Hge]; [|reflexivity].
      cbn [andb]. rewrite bit_chars_nth by (unfold n; lia).
      replace (Z.of_nat (n - 1 - Z.to_nat (bitsCount - 1 - t))) with t
        by (unfold n; lia).
      apply reads_bit_char. lia.
Qed.

Lemma TransformFromBits_TransformToBits_witness :
  exists bits,
    TransformToBits 5 1000 4 = Ret bits /\
    TransformFromBits 5 bits 4 = ([], Ret (1000 mod 2 ^ 4)).
Proof.
  apply (TransformFromBits_TransformToBits 5 1000 4); [lia| |cbn; lia].
  unfold MaxBits. lia.
Defined.

(** X18.  Round trip through the integer: a string of [bitsCount <= 4096]
    characters ['0'] and ['1'] is read by [TransformFromBits] without a
    warning as a value below [2^bitsCount], and [TransformToBits] writes
    that value back as the same string. *)
Theorem TransformToBits_TransformFromBits fuel bits :
  let bitsCount := Z.of_nat (List.length bits) in
  Forall (fun c => c = "0"%char \/ c = "1"%char) bits ->
  bitsCount <= MaxBits -> (List.length bits < fuel)%nat ->
  exists r,
    TransformFromBits fuel bits bitsCount = ([], Ret r) /\
    0 <= r < 2 ^ bitsCount /\
    TransformToBits fuel r bitsCount = Ret bits.
Proof.
  intros bitsCount Hbin Hb Hfuel.
  destruct (TransformFromBits_value bits bitsCount Hb fuel) as [r [Er Hr]].
  - unfold bitsCount, MaxBits in *. lia.
  - fold bitsCount. rewrite Z.min_id. unfold bitsCount. lia.
  - fold bitsCount in Hr. rewrite Z.min_id in Hr.
    exists r. split; [|split].
    + rewrite (surjective_pairing (TransformFromBits fuel bits bitsCount)).
      f_equal; [|exact Er].
      unfold TransformFromBits. cbn [fst]. fold bitsCount.
      rewrite size_check by (unfold bitsCount, MaxBits in *; lia).
      rewrite Z.eqb_refl. reflexivity.
    + assert (E : r = r mod 2 ^ bitsCount).
      { apply Z.bits_inj'. intros t Ht.
        rewrite Z.testbit_mod_pow2, (Hr t Ht) by (unfold bitsCount; lia).
        destruct (t <? bitsCount); reflexivity. }
      rewrite E. apply Z.mod_pos_bound. apply Z.pow_pos_nonneg; unfold bitsCount; lia.
    + rewrite TransformToBits_run by (unfold bitsCount; lia).
      f_equal. unfold bitsCount. rewrite Nat2Z.id.
      apply (nth_ext _ _ Ascii.zero Ascii.zero); [apply bit_chars_length|].
      intros k Hk. rewrite bit_chars_length in Hk.
      rewrite bit_chars_nth by exact Hk. unfold bit_char.
      assert (Hidx : 0 <= Z.of_nat (List.length bits - 1 - k) < bitsCount)
        by (unfold bitsCount; lia).
      destruct (Z.ltb_spec (Z.of_nat (List.length bits - 1 - k)) MaxBits); [|lia].
      cbn [andb]. rewrite Hr by lia.
      destruct (Z.ltb_spec (Z.of_nat (List.length bits - 1 - k)) bitsCount); [|lia].
      cbn [andb].
      replace (Z.to_nat (bitsCount - 1 - Z.of_nat (List.length bits - 1 - k)))
        with k by (unfold bitsCount; lia).
      rewrite Forall_forall in Hbin.
      destruct (Hbin (nth k bits Ascii.zero) (nth_In bits Ascii.zero Hk)) as [-> | ->];
        reflexivity.
Qed.

Lemma TransformToBits_TransformFromBits_witness :
  let bits := list_ascii_of_string "001011" in
  let bitsCount := Z.of_nat (List.length bits) in
  exists r,
    TransformFromBits 7 bits bitsCount = ([], Ret r) /\
    0 <= r < 2 ^ bitsCount /\
    TransformToBits 7 r bitsCount = Ret bits.
Proof.
  apply (TransformToBits_TransformFromBits 7 (list_ascii_of_string "001011")).
  - cbn. repeat (apply Forall_cons;
                 [first [left; reflexivity | right; reflexivity]|]).
    apply Forall_nil.
  - unfold MaxBits. cbn. lia.
  - cbn. lia.
Defined.

(** X19.  [TransformFromBits] reads only the last [bitsCount] characters: put
    any prefix before a string of [bitsCount <= 4096] characters and the
    value returned for that count is the same; a non-empty prefix only adds
    the warning. *)
Theorem TransformFromBits_rightmost fuel pre bits :
  let bitsCount := Z.of_nat (List.length bits) in
  bitsCount <= MaxBits -> Z.of_nat (List.length (pre ++ bits)) < 2 ^ 31 ->
  (List.length bits < fuel)%nat ->
  snd (TransformFromBits fuel (pre ++ bits) bitsCount) =
    snd (TransformFromBits fuel bits bitsCount) /\
  (pre <> [] ->
   fst (TransformFromBits fuel (pre ++ bits) bitsCount) = [warning_incorrect_sizes]).
Proof.
  intros bitsCount Hb Hlen Hfuel.
  rewrite length_app, Nat2Z.inj_add in Hlen. fold bitsCount in Hlen.
  destruct (TransformFromBits_value (pre ++ bits) bitsCount Hb fuel) as [r1 [E1 H1]].
  - rewrite length_app, Nat2Z.inj_add. exact Hlen.
  - rewrite length_app, Nat2Z.inj_add. fold bitsCount.
    rewrite Z.min_r by lia. unfold bitsCount. lia.
  - destruct (TransformFromBits_value bits bitsCount Hb fuel) as [r2 [E2 H2]].
    + fold bitsCount. lia.
    + fold bitsCount. rewrite Z.min_id. unfold bitsCount. lia.
    + split.
      * rewrite E1, E2. f_equal. apply Z.bits_inj'. intros t Ht.
        rewrite (H1 t Ht), (H2 t Ht). fold bitsCount.
        rewrite length_app, Nat2Z.inj_add. fold bitsCount.
        rewrite Z.min_r, Z.min_id by lia.
        destruct (Z.ltb_spec t bitsCount) as [Hlt|Hge]; [|reflexivity].
        cbn [andb]. f_equal. rewrite app_nth2 by lia. f_equal. lia.
      * intros Hpre. unfold TransformFromBits. cbn [fst].
        rewrite length_app, Nat2Z.inj_add. fold bitsCount.
        rewrite size_check by (unfold bitsCount, MaxBits in *; lia).
        destruct pre as [|c pre]; [contradiction|]. cbn [List.length] in *.
        destruct (Z.eqb_spec bitsCount (Z.of_nat (S (List.length pre)) + bitsCount));
          [lia|reflexivity].
Qed.

Lemma TransformFromBits_rightmost_witness :
  let pre := list_ascii_of_string "11" in
  let bits := list_ascii_of_string "x01011" in
  let bitsCount := Z.of_nat (List.length bits) in
  snd (TransformFromBits 7 (pre ++ bits) bitsCount) =
    snd (TransformFromBits 7 bits bitsCount) /\
  (pre <> [] ->
   fst (TransformFromBits 7 (pre ++ bits) bitsCount) = [warning_incorrect_sizes]).
Proof.
  apply (TransformFromBits_rightmost 7 (list_ascii_of_string "11")
           (list_ascii_of_string "x01011")).
  - unfold MaxBits. cbn. lia.
  - cbn. lia.
  - cbn. lia.
Defined.
